(** * The B2 writer: chunking, path selection, worker pool and registry

    A model of [b2/b2.go] (type [Writer] with [Write], [sendChunk],
    [simpleWriteFile], [Close] and the worker goroutine [thread]; [NewClient]
    and the lookup of a bucket, [Bucket]) and of the writer registry
    ([addWriter], [removeWriter]).

    The writer runs one caller thread and a pool of worker goroutines that
    meet on the unbuffered channel [bw.ready].  The model is a labelled
    transition system: a [World] holds the fields of the [Writer] struct, the
    program point of the caller thread, the program point of every worker
    and the history of what happened; [step] performs one atomic move, chosen
    by an [action] that also carries what the remote service answers.

    Go's [int] is 64 bits wide.  The counters [cidx] and [attempt] grow by
    one for every 100,000,000 bytes written and for every failed upload, so
    they stay far from its bounds; they are integers here. *)

From Stdlib Require Import ZArith Lia.
From stdpp Require Import base tactics option list numbers strings gmap.

Local Open Scope Z_scope.

Abbreviation byte := Byte.byte.

(** * Definitions *)

(** ** Constants and helpers *)

(** The literal [1e8] of [Write] (line 136). *)
Definition threshold : Z := 100000000.

Lemma threshold_eq : threshold = 100000000.
Proof. reflexivity. Qed.

Lemma threshold_pos : 0 < threshold.
Proof. rewrite threshold_eq. lia. Qed.

#[global] Opaque threshold.

(** Go's [len(p)] and [bytes.Buffer.Len()]. *)
Definition len (p : list byte) : Z := Z.of_nat (length p).

(** [fmt.Sprintf("%x", digest)]: lower-case hexadecimal, two digits a byte. *)
Definition hex_digit (n : N) : Ascii.ascii :=
  if (n <? 10)%N then Ascii.ascii_of_N (48 + n) else Ascii.ascii_of_N (87 + n).

Definition hex_byte (b : byte) : string :=
  let n := Byte.to_N b in
  String (hex_digit (n / 16)) (String (hex_digit (n mod 16)) EmptyString).

Fixpoint hex (bs : list byte) : string :=
  match bs with
  | [] => EmptyString
  | b :: rest => hex_byte b +:+ hex rest
  end.

(** The interface [hash.Hash] as [Writer] uses it: [sha1.New()], [Write] and
    [Sum(nil)].  The two laws say that the state of a running hash is a
    function of the byte stream written so far. *)
Class Hash := {
  hstate : Type;
  hnew : hstate;
  hwrite : hstate -> list byte -> hstate;
  hsum : hstate -> list byte;
  hwrite_nil : forall s, hwrite s [] = s;
  hwrite_app : forall s a b, hwrite (hwrite s a) b = hwrite s (a ++ b)
}.

(** ** Data model *)

Definition error := string.

(** Modelled from the spec: the Remote Storage API (package [base], whose
    code is not among the sources).  A call answers with success or with an
    error and reads what it is passed without touching a field of the
    writer; which of the two it answers is an input of the model. *)
Inductive result :=
| OK
| Fail (e : error).

Definition err_of (r : result) : option error :=
  match r with
  | OK => None
  | Fail e => Some e
  end.

(** [type chunk struct] (lines 70-76). *)
Record chunk := Chunk {
  chunk_id : Z;
  chunk_attempt : Z;
  chunk_size : Z;
  chunk_sha1 : string;
  chunk_buf : list byte
}.

(** [chunk.attempt++] (line 126). *)
Definition bump (c : chunk) : chunk :=
  Chunk (chunk_id c) (chunk_attempt c + 1) (chunk_size c) (chunk_sha1 c) (chunk_buf c).

(** The channel [bw.ready]: nil until [make(chan chunk)], then open, then
    closed.  It is unbuffered, so it holds no chunk of its own. *)
Inductive chan :=
| ChNil
| ChOpen
| ChClosed.

(** Modelled from the spec: the operations of the Remote Storage API the
    writer calls, with the arguments the writer passes. *)
Inductive call :=
| GetUploadURL
| UploadFile (data : list byte) (size : Z) (name ctype sha1 : string)
    (info : gmap string string)
| StartLargeFile (name ctype : string) (info : gmap string string)
| GetUploadPartURL
| UploadPart (data : list byte) (sha1 : string) (size : Z) (id : Z)
| FinishLargeFile.

(** The history of a writer, oldest event first. *)
Inductive event :=
| EvCallWrite (p : list byte)
| EvRetWrite (n : Z) (err : option error)
| EvCallClose
| EvRetClose (err : option error)
| EvRemote (c : call) (r : result)
| EvLog (e : error)
| EvSubmit (c : chunk)
| EvResubmit (c : chunk).

(** Where [sendChunk] returns to: the rest of [Write] (the bytes consumed so
    far by the enclosing calls and [p[left:]]), or [Close]. *)
Inductive frame :=
| FWrite (acc : Z) (rest : list byte)
| FClose.

(** Program points of the caller thread. *)
Inductive pc :=
| Idle
| AtStart (k : frame)
| AtSend (k : frame)
| AtGetUploadURL
| AtUploadFile
| AtWait
| AtFinish
| Panicked.

(** Program points of a worker goroutine ([thread], lines 110-132). *)
Inductive worker :=
| WGetURL
| WRecv
| WUpload (c : chunk)
| WResend (c : chunk)
| WExit.

(** ** Reading a history *)

Definition pick (f : event -> bool) (t : list event) : list event :=
  omap (fun e => if f e then Some e else None) t.

Definition count (f : event -> bool) (t : list event) : nat :=
  length (pick f t).

(** The chunks [sendChunk] has handed to the pool, in the order of their
    sends. *)
Definition submitted (t : list event) : list chunk :=
  omap (fun e => match e with EvSubmit c => Some c | _ => None end) t.

Definition remote_calls (t : list event) : list (call * result) :=
  omap (fun e => match e with EvRemote c r => Some (c, r) | _ => None end) t.

Definition is_api (e : event) : bool :=
  match e with
  | EvCallWrite _ | EvRetWrite _ _ | EvCallClose | EvRetClose _ => true
  | _ => false
  end.

(** What the caller sees: its calls and their returns. *)
Definition history (t : list event) : list event := pick is_api t.

Definition is_call_write (e : event) : bool :=
  match e with EvCallWrite _ => true | _ => false end.

Definition is_call_close (e : event) : bool :=
  match e with EvCallClose => true | _ => false end.

Definition is_start (e : event) : bool :=
  match e with EvRemote (StartLargeFile _ _ _) _ => true | _ => false end.

Definition is_finish (e : event) : bool :=
  match e with EvRemote FinishLargeFile _ => true | _ => false end.

Definition is_part_url (e : event) : bool :=
  match e with EvRemote GetUploadPartURL _ => true | _ => false end.

(** The bytes the [Write] calls have reported as consumed. *)
Definition accepted (t : list event) : Z :=
  foldr (fun e s => match e with EvRetWrite n _ => n + s | _ => s end) 0 t.

Definition has_close (t : list event) : bool := existsb is_call_close t.

(** No [Write] was called after a [Close]. *)
Fixpoint clean (t : list event) : bool :=
  match t with
  | [] => true
  | EvCallClose :: rest => negb (existsb is_call_write rest)
  | _ :: rest => clean rest
  end.

(** A call of the caller has not returned yet. *)
Definition in_call (t : list event) : bool :=
  match last (history t) with
  | Some (EvCallWrite _) | Some EvCallClose => true
  | _ => false
  end.

Definition total_size (cs : list chunk) : Z :=
  foldr (fun c s => chunk_size c + s) 0 cs.

(** ** What the invariant speaks of *)

(** Bytes of the current call that [Write] has consumed but not reported. *)
Definition pending (m : pc) : Z :=
  match m with
  | AtStart (FWrite acc _) | AtSend (FWrite acc _) => acc
  | _ => 0
  end.

(** The caller is inside the function of [done.Do]. *)
Definition closing (m : pc) : bool :=
  match m with
  | AtStart FClose | AtSend FClose | AtGetUploadURL | AtUploadFile | AtWait | AtFinish => true
  | _ => false
  end.

Definition in_write (m : pc) : bool :=
  match m with
  | AtStart (FWrite _ _) | AtSend (FWrite _ _) => true
  | _ => false
  end.

Definition at_rest (m : pc) : bool :=
  match m with
  | Idle | AtWait | AtFinish => true
  | _ => false
  end.

Definition is_idle (m : pc) : bool :=
  match m with Idle => true | _ => false end.

Definition full (c : chunk) : Prop := chunk_size c = threshold.

(** [c] is the chunk [c0] up to its attempt counter. *)
Definition same_part (c0 c : chunk) : Prop :=
  chunk_id c = chunk_id c0 /\ chunk_size c = chunk_size c0 /\
  chunk_sha1 c = chunk_sha1 c0 /\ chunk_buf c = chunk_buf c0 /\
  0 <= chunk_attempt c.

Definition part_of (subs : list chunk) (c : chunk) : Prop :=
  exists c0, c0 ∈ subs /\ same_part c0 c.

Definition held_ok (subs : list chunk) (w : worker) : Prop :=
  match w with
  | WUpload c => part_of subs c
  | WResend c => part_of subs c /\ 1 <= chunk_attempt c
  | _ => True
  end.

Definition part_event_ok (subs : list chunk) (e : event) : Prop :=
  match e with
  | EvResubmit c => part_of subs c /\ 1 <= chunk_attempt c
  | EvRemote (UploadPart data sha size id) _ =>
      exists c0, c0 ∈ subs /\ id = chunk_id c0 /\ size = chunk_size c0 /\
                 sha = chunk_sha1 c0 /\ data = chunk_buf c0
  | _ => True
  end.

Definition empty_write (e : event) : Prop :=
  match e with EvCallWrite p => p = [] | _ => True end.

Definition is_geturl (w : worker) : bool :=
  match w with WGetURL => true | _ => false end.

(** The workers that have not asked for their upload endpoint yet. *)
Fixpoint n_geturl (ws : list worker) : nat :=
  match ws with
  | [] => 0
  | w :: rest => (if is_geturl w then 1 else 0) + n_geturl rest
  end.

(** ** The shape of a history *)

(** Every event of [t] that satisfies [P] (given what came before it) is
    followed at once by one that [Q] relates to it. *)
Definition followed (P : list event -> event -> Prop) (Q : event -> event -> Prop)
    (t : list event) : Prop :=
  forall i e, t !! i = Some e -> P (take i t) e ->
    exists e', t !! S i = Some e' /\ Q e e'.

(** Every event of [t] that satisfies [P] comes right after one that [Q]
    relates to it. *)
Definition preceded (P : event -> Prop) (Q : event -> event -> Prop)
    (t : list event) : Prop :=
  forall i e, t !! i = Some e -> P e ->
    exists j e', i = S j /\ t !! j = Some e' /\ Q e' e.

(** The calls the caller thread makes itself. *)
Definition caller_call (c : call) : bool :=
  match c with
  | GetUploadPartURL | UploadPart _ _ _ _ => false
  | _ => true
  end.

Definition returns (err : error) (e : event) : Prop :=
  (exists n, e = EvRetWrite n (Some err)) \/ e = EvRetClose (Some err).

Definition caller_failure (e : event) : Prop :=
  exists c err, e = EvRemote c (Fail err) /\ caller_call c = true.

Definition worker_failure (e : event) : Prop :=
  exists c err, e = EvRemote c (Fail err) /\ caller_call c = false.

Definition surfaces (e e' : event) : Prop :=
  forall c err, e = EvRemote c (Fail err) -> returns err e'.

Definition only_logged (e e' : event) : Prop :=
  forall c err, e = EvRemote c (Fail err) -> e' = EvLog err.

Definition later_close (pre : list event) (e : event) : Prop :=
  e = EvCallClose /\ has_close pre = true.

Definition returns_nil (_ e' : event) : Prop := e' = EvRetClose None.

Definition error_return (e : event) : Prop := exists err, returns err e.

Definition caused_by (e0 e : event) : Prop :=
  exists c err, e0 = EvRemote c (Fail err) /\ caller_call c = true /\ returns err e.

Record Shape (t : list event) : Prop := {
  shape_caller : followed (fun _ => caller_failure) surfaces t;
  shape_worker : followed (fun _ => worker_failure) only_logged t;
  shape_close : followed later_close returns_nil t;
  shape_error : preceded error_return caused_by t
}.

(** ** Finished uploads and concrete payloads *)

Fixpoint writes_ok (ps : list (list byte)) : list event :=
  match ps with
  | [] => []
  | p :: rest => EvCallWrite p :: EvRetWrite (len p) None :: writes_ok rest
  end.

Definition total_len (ps : list (list byte)) : Z :=
  foldr (fun p s => len p + s) 0 ps.


(** [n] zero bytes: the payload of the concrete runs. *)
Definition zeros (n : Z) : list byte := replicate (Z.to_nat n) Byte.x00.

(** ** The writer *)

Section WriterModel.
Context `{Hash}.

(** [type Writer struct] (lines 81-108).  [ctx] and [bucket] are handles of
    the remote service and carry no state of the writer; [w] is the
    [io.MultiWriter] over [chsh] and [cbuf], assigned together with them
    (lines 62-66 and 190-192), and is modelled by [w_Write]. *)
Record Writer := mkWriter {
  ConcurrentUploads : Z;
  TotalRetries : Z;
  ready : chan;
  wg : Z;
  once : bool;
  done : bool;
  file : bool;
  name : string;
  ctype : string;
  info : gmap string string;
  cbuf : list byte;
  cidx : Z;
  chsh : hstate
}.

(** The writer together with its threads: the program point of the caller
    thread, those of the workers in the order they were started, the
    history so far, and whether a panic has ended the program.  Calls on a
    writer are made by one thread, one after the other. *)
Record World := mkWorld {
  bw : Writer;
  main : pc;
  workers : list worker;
  trace : list event;
  crashed : bool
}.

(** [NewWriter] (lines 56-68). *)
Definition NewWriter (nm ct : string) (inf : gmap string string) : Writer :=
  mkWriter 0 0 ChNil 0 false false false nm ct inf [] 0 hnew.

Definition NewWorld (nm ct : string) (inf : gmap string string) : World :=
  mkWorld (NewWriter nm ct inf) Idle [] [] false.

(** *** Field updates *)

Definition with_bw (f : Writer -> Writer) (W : World) : World :=
  mkWorld (f (bw W)) (main W) (workers W) (trace W) (crashed W).

Definition goto (m : pc) (W : World) : World :=
  mkWorld (bw W) m (workers W) (trace W) (crashed W).

Definition record (e : event) (W : World) : World :=
  mkWorld (bw W) (main W) (workers W) (trace W ++ [e]) (crashed W).

Definition set_worker (i : nat) (w : worker) (W : World) : World :=
  mkWorld (bw W) (main W) (<[i := w]> (workers W)) (trace W) (crashed W).

Definition spawn (n : nat) (W : World) : World :=
  mkWorld (bw W) (main W) (workers W ++ replicate n WGetURL) (trace W) (crashed W).

(** A panic ends the program.  [panic] is a panic of the caller thread,
    [worker_panic] one of a worker goroutine. *)
Definition panic (W : World) : World :=
  mkWorld (bw W) Panicked (workers W) (trace W) true.

Definition worker_panic (W : World) : World :=
  mkWorld (bw W) (main W) (workers W) (trace W) true.

Definition set_ConcurrentUploads (n : Z) (b : Writer) : Writer :=
  mkWriter n (TotalRetries b) (ready b) (wg b) (once b) (done b) (file b)
    (name b) (ctype b) (info b) (cbuf b) (cidx b) (chsh b).

Definition set_TotalRetries (n : Z) (b : Writer) : Writer :=
  mkWriter (ConcurrentUploads b) n (ready b) (wg b) (once b) (done b) (file b)
    (name b) (ctype b) (info b) (cbuf b) (cidx b) (chsh b).

Definition set_ready (c : chan) (b : Writer) : Writer :=
  mkWriter (ConcurrentUploads b) (TotalRetries b) c (wg b) (once b) (done b) (file b)
    (name b) (ctype b) (info b) (cbuf b) (cidx b) (chsh b).

Definition set_wg (n : Z) (b : Writer) : Writer :=
  mkWriter (ConcurrentUploads b) (TotalRetries b) (ready b) n (once b) (done b) (file b)
    (name b) (ctype b) (info b) (cbuf b) (cidx b) (chsh b).

Definition set_once (b : Writer) : Writer :=
  mkWriter (ConcurrentUploads b) (TotalRetries b) (ready b) (wg b) true (done b) (file b)
    (name b) (ctype b) (info b) (cbuf b) (cidx b) (chsh b).

Definition set_done (b : Writer) : Writer :=
  mkWriter (ConcurrentUploads b) (TotalRetries b) (ready b) (wg b) (once b) true (file b)
    (name b) (ctype b) (info b) (cbuf b) (cidx b) (chsh b).

Definition set_file (b : Writer) : Writer :=
  mkWriter (ConcurrentUploads b) (TotalRetries b) (ready b) (wg b) (once b) (done b) true
    (name b) (ctype b) (info b) (cbuf b) (cidx b) (chsh b).

(** [bw.w.Write(p)]: the multi-writer hands [p] to the hash and then to the
    buffer; neither of the two ever fails, so it answers [len(p), nil]. *)
Definition w_Write (p : list byte) (b : Writer) : Writer :=
  mkWriter (ConcurrentUploads b) (TotalRetries b) (ready b) (wg b) (once b) (done b) (file b)
    (name b) (ctype b) (info b) (cbuf b ++ p) (cidx b) (hwrite (chsh b) p).

(** Lines 189-192 of [sendChunk]: [cidx++], a new hash, a new buffer and the
    multi-writer over the two. *)
Definition reset_chunk (b : Writer) : Writer :=
  mkWriter (ConcurrentUploads b) (TotalRetries b) (ready b) (wg b) (once b) (done b) (file b)
    (name b) (ctype b) (info b) [] (cidx b + 1) hnew.

(** The chunk literal of [sendChunk] (lines 183-188); [attempt] is zero. *)
Definition sealed (b : Writer) : chunk :=
  Chunk (cidx b + 1) 0 (len (cbuf b)) (hex (hsum (chsh b))) (cbuf b).

(** *** The caller thread *)

Definition ret_write (n : Z) (err : option error) (W : World) : World :=
  goto Idle (record (EvRetWrite n err) W).

Definition ret_close (err : option error) (W : World) : World :=
  goto Idle (record (EvRetClose err) W).

(** [return err] out of [sendChunk] into its caller, which returns it too
    (lines 144-146 and 205-208). *)
Definition ret_err (k : frame) (e : error) (W : World) : World :=
  match k with
  | FWrite acc _ => ret_write acc (Some e) W
  | FClose => ret_close (Some e) W
  end.

(** [bw.ready <- chunk{...}] (line 183): a send on a closed channel panics;
    on a nil or open channel the thread waits for a receiver. *)
Definition send (k : frame) (W : World) : World :=
  match ready (bw W) with
  | ChClosed => panic W
  | _ => goto (AtSend k) W
  end.

(** [sendChunk] up to its first interaction (lines 163-183): [once.Do] runs
    its function the first time only. *)
Definition sendChunk (k : frame) (W : World) : World :=
  if once (bw W) then send k W
  else goto (AtStart k) (with_bw set_once W).

(** [close(bw.ready); bw.wg.Wait()] (lines 210-211). *)
Definition close_ready (W : World) : World :=
  match ready (bw W) with
  | ChOpen => goto AtWait (with_bw (set_ready ChClosed) W)
  | _ => panic W
  end.

(** [Write] (lines 135-149) up to its return or to [sendChunk]; [acc] is the
    sum of the [i] of the enclosing calls. *)
Definition Write (acc : Z) (p : list byte) (W : World) : World :=
  let left := threshold - len (cbuf (bw W)) in
  if len p <? left then
    ret_write (acc + len p) None (with_bw (w_Write p) W)
  else if left <? 0 then panic W
  else
    sendChunk (FWrite (acc + left) (drop (Z.to_nat left) p))
      (with_bw (w_Write (take (Z.to_nat left) p)) W).

(** [Close] (lines 197-218) up to its return or first interaction. *)
Definition Close (W : World) : World :=
  if done (bw W) then ret_close None W
  else
    let W1 := with_bw set_done W in
    if cidx (bw W1) =? 0 then goto AtGetUploadURL W1
    else if 0 <? len (cbuf (bw W1)) then sendChunk FClose W1
    else close_ready W1.

(** The function of [once.Do] in [sendChunk] (lines 166-178), once
    [StartLargeFile] has answered, and [sendChunk] from there to the send. *)
Definition started (k : frame) (r : result) (W : World) : World :=
  let W1 := record (EvRemote (StartLargeFile (name (bw W)) (ctype (bw W)) (info (bw W))) r) W in
  match r with
  | Fail e => ret_err k e W1
  | OK =>
      let n := Z.max 1 (ConcurrentUploads (bw W1)) in
      send k (spawn (Z.to_nat n)
        (with_bw (fun b => set_ConcurrentUploads n (set_ready ChOpen (set_file b))) W1))
  end.

(** The rest of [sendChunk] once the send is through (lines 189-193), and
    its caller from there. *)
Definition sent (k : frame) (W : World) : World :=
  let W1 := with_bw reset_chunk (record (EvSubmit (sealed (bw W))) W) in
  match k with
  | FWrite acc rest => Write acc rest W1
  | FClose => close_ready W1
  end.

(** [simpleWriteFile] (lines 151-161). *)
Definition got_upload_url (r : result) (W : World) : World :=
  let W1 := record (EvRemote GetUploadURL r) W in
  match r with
  | Fail e => ret_close (Some e) W1
  | OK => goto AtUploadFile W1
  end.

Definition uploaded_file (r : result) (W : World) : World :=
  let b := bw W in
  ret_close (err_of r)
    (record (EvRemote
       (UploadFile (cbuf b) (len (cbuf b)) (name b) (ctype b) (hex (hsum (chsh b))) (info b)) r) W).

(** [FinishLargeFile] (lines 212-215). *)
Definition finished (r : result) (W : World) : World :=
  ret_close (err_of r) (record (EvRemote FinishLargeFile r) W).

(** *** The workers *)

(** Lines 112-118 of [thread]. *)
Definition got_part_url (i : nat) (r : result) (W : World) : World :=
  let W1 := record (EvRemote GetUploadPartURL r) W in
  match r with
  | Fail e => set_worker i WExit (record (EvLog e) W1)
  | OK => set_worker i WRecv (with_bw (fun b => set_wg (wg b + 1) b) W1)
  end.

(** Lines 124-129 of [thread]. *)
Definition uploaded_part (i : nat) (c : chunk) (r : result) (W : World) : World :=
  let W1 := record (EvRemote
    (UploadPart (chunk_buf c) (chunk_sha1 c) (chunk_size c) (chunk_id c)) r) W in
  match r with
  | Fail e => set_worker i (WResend (bump c)) (record (EvLog e) W1)
  | OK => set_worker i WRecv W1
  end.

(** *** Transitions *)

(** One atomic move.  The caller assigns a public field or calls [Write] or
    [Close] (when no call is in progress); a remote call of the caller
    thread answers; the send of the caller thread meets worker [j] at its
    receive; [wg.Wait()] returns; the remote call of worker [i] answers;
    the send of worker [i] meets worker [j] at its receive; worker [i]
    finds the channel closed at its receive, or at its send. *)
Inductive action :=
| SetConcurrentUploads (n : Z)
| SetTotalRetries (n : Z)
| CallWrite (p : list byte)
| CallClose
| MainRemote (r : result)
| MainSend (j : nat)
| MainWait
| WorkerRemote (i : nat) (r : result)
| WorkerSend (i j : nat)
| WorkerRecvClosed (i : nat)
| WorkerSendClosed (i : nat).

(** The moves of the caller thread.  [None]: the move is not possible in
    [W]. *)
Definition main_step (a : action) (W : World) : option World :=
  match a, main W with
  | SetConcurrentUploads n, Idle => Some (with_bw (set_ConcurrentUploads n) W)
  | SetTotalRetries n, Idle => Some (with_bw (set_TotalRetries n) W)
  | CallWrite p, Idle => Some (Write 0 p (record (EvCallWrite p) W))
  | CallClose, Idle => Some (Close (record EvCallClose W))
  | MainRemote r, AtStart k => Some (started k r W)
  | MainRemote r, AtGetUploadURL => Some (got_upload_url r W)
  | MainRemote r, AtUploadFile => Some (uploaded_file r W)
  | MainRemote r, AtFinish => Some (finished r W)
  | MainSend j, AtSend k =>
      match ready (bw W), workers W !! j with
      | ChOpen, Some WRecv =>
          Some (sent k (set_worker j (WUpload (sealed (bw W))) W))
      | _, _ => None
      end
  | MainWait, AtWait =>
      if wg (bw W) =? 0 then Some (goto AtFinish W) else None
  | _, _ => None
  end.

(** The moves of the workers ([thread], lines 110-132): the answer of
    [GetUploadPartURL] or of [UploadPart]; the resend of line 127 received
    by another worker; [ok == false] at the receive of line 120; a send on
    the closed channel, which panics. *)
Definition worker_step (a : action) (W : World) : option World :=
  match a with
  | WorkerRemote i r =>
      match workers W !! i with
      | Some WGetURL => Some (got_part_url i r W)
      | Some (WUpload c) => Some (uploaded_part i c r W)
      | _ => None
      end
  | WorkerSend i j =>
      match ready (bw W), workers W !! i, workers W !! j with
      | ChOpen, Some (WResend c), Some WRecv =>
          Some (set_worker j (WUpload c) (set_worker i WRecv (record (EvResubmit c) W)))
      | _, _, _ => None
      end
  | WorkerRecvClosed i =>
      match ready (bw W), workers W !! i with
      | ChClosed, Some WRecv =>
          Some (set_worker i WExit (with_bw (fun b => set_wg (wg b - 1) b) W))
      | _, _ => None
      end
  | WorkerSendClosed i =>
      match ready (bw W), workers W !! i with
      | ChClosed, Some (WResend _) => Some (worker_panic W)
      | _, _ => None
      end
  | _ => None
  end.

(** Nothing moves once the program has panicked. *)
Definition step (W : World) (a : action) : option World :=
  if crashed W then None
  else
    match a with
    | WorkerRemote _ _ | WorkerSend _ _ | WorkerRecvClosed _ | WorkerSendClosed _ =>
        worker_step a W
    | _ => main_step a W
    end.

Fixpoint run (W : World) (acts : list action) : option World :=
  match acts with
  | [] => Some W
  | a :: rest =>
      match step W a with
      | Some W' => run W' rest
      | None => None
      end
  end.

(** The worlds a fresh writer can get to. *)
Definition reachable (W : World) : Prop :=
  exists nm ct inf acts, run (NewWorld nm ct inf) acts = Some W.

(** *** The invariant of reachable worlds *)

(** The digest and the size of a chunk are those of its payload. *)
Definition digest_ok (c : chunk) : Prop :=
  chunk_sha1 c = hex (hsum (hwrite hnew (chunk_buf c))) /\
  chunk_size c = len (chunk_buf c) /\
  chunk_attempt c = 0.

Definition upfile_ok (e : event) : Prop :=
  match e with
  | EvRemote (UploadFile data size _ _ sha _) _ =>
      sha = hex (hsum (hwrite hnew data)) /\ size = len data
  | _ => True
  end.

Definition buf_ok (b : Writer) (m : pc) : Prop :=
  match m with
  | AtStart (FWrite _ _) | AtSend (FWrite _ _) => len (cbuf b) = threshold
  | AtStart FClose => False
  | AtSend FClose => 0 < len (cbuf b) < threshold
  | Panicked => True
  | _ => len (cbuf b) < threshold \/
         (once b = true /\ ready b = ChNil /\ len (cbuf b) = threshold)
  end.

Record Inv (nm0 ct0 : string) (inf0 : gmap string string) (W : World) : Prop := {
  inv_name : name (bw W) = nm0 /\ ctype (bw W) = ct0 /\ info (bw W) = inf0;
  inv_lockstep : chsh (bw W) = hwrite hnew (cbuf (bw W));
  inv_cidx : cidx (bw W) = Z.of_nat (length (submitted (trace W)));
  inv_ids : map chunk_id (submitted (trace W)) =
            map Z.of_nat (seq 1 (length (submitted (trace W))));
  inv_digest : Forall digest_ok (submitted (trace W));
  inv_upfile : Forall upfile_ok (trace W);
  inv_held : Forall (held_ok (submitted (trace W))) (workers W);
  inv_parts : Forall (part_event_ok (submitted (trace W))) (trace W);
  inv_once : once (bw W) = false -> ready (bw W) = ChNil;
  inv_nil : ready (bw W) = ChNil -> workers W = [] /\ submitted (trace W) = [];
  inv_start : (count is_start (trace W) <= 1)%nat /\
              (once (bw W) = false -> count is_start (trace W) = 0%nat);
  inv_at_start : forall k, main W = AtStart k ->
                 count is_start (trace W) = 0%nat /\ once (bw W) = true /\
                 ready (bw W) = ChNil;
  inv_done : has_close (trace W) = done (bw W);
  inv_closed : ready (bw W) = ChClosed -> done (bw W) = true;
  inv_closing : closing (main W) = true ->
                done (bw W) = true /\ count is_finish (trace W) = 0%nat;
  inv_finish : (count is_finish (trace W) <= 1)%nat /\
               (done (bw W) = false -> count is_finish (trace W) = 0%nat);
  inv_simple : main W = AtGetUploadURL \/ main W = AtUploadFile -> cidx (bw W) = 0;
  inv_buf : buf_ok (bw W) (main W);
  inv_cons : main W <> Panicked ->
             total_size (submitted (trace W)) + len (cbuf (bw W)) =
             accepted (trace W) + pending (main W);
  inv_sizes : Forall full (submitted (trace W)) \/
              (ready (bw W) = ChClosed /\
               exists l c, submitted (trace W) = l ++ [c] /\ Forall full l /\
                           0 < chunk_size c < threshold);
  inv_flushed : done (bw W) = true -> clean (trace W) = true ->
                cidx (bw W) <> 0 -> at_rest (main W) = true -> cbuf (bw W) = [];
  inv_dirty : done (bw W) = true -> in_write (main W) = true ->
              clean (trace W) = false;
  inv_in_call : in_call (trace W) = negb (is_idle (main W));
  inv_pool : (count is_part_url (trace W) + n_geturl (workers W)
              = length (workers W))%nat;
  inv_empty : Forall empty_write (trace W) ->
              cbuf (bw W) = [] /\ cidx (bw W) = 0 /\
              (main W = Idle \/ main W = AtGetUploadURL \/ main W = AtUploadFile)
}.

(** *** A writer whose start-session call has failed *)



(** *** [TotalRetries] *)


(** *** A part whose upload keeps failing *)


End WriterModel.

(** A hash whose state is the stream written so far and whose digest is
    that stream: the instance the concrete runs below are evaluated with. *)
Definition stream_hash : Hash :=
  {| hstate := list byte;
     hnew := [];
     hwrite := fun s p => s ++ p;
     hsum := fun s => s;
     hwrite_nil := fun s => app_nil_r s;
     hwrite_app := fun s a b => eq_sym (app_assoc s a b) |}.

(** ** Concrete runs *)

(** One write of exactly the threshold, one worker, every call granted. *)
Definition upload_exact (p : list byte) : list action :=
  [CallWrite p; MainRemote OK; WorkerRemote 0 OK; MainSend 0;
   WorkerRemote 0 OK; CallClose; WorkerRecvClosed 0; MainWait; MainRemote OK].

(** Two workers; the first is refused its upload endpoint. *)
Definition upload_one_endpoint_refused (p : list byte) (err : error) : list action :=
  [SetConcurrentUploads 2; CallWrite p; MainRemote OK;
   WorkerRemote 0 (Fail err); WorkerRemote 1 OK; MainSend 1;
   WorkerRemote 1 OK; CallClose; WorkerRecvClosed 1; MainWait; MainRemote OK].


(** The first part upload of a one-worker writer fails. *)
Definition first_upload_fails (p : list byte) (err : error) : list action :=
  [CallWrite p; MainRemote OK; WorkerRemote 0 OK; MainSend 0;
   WorkerRemote 0 (Fail err)].

(** ** The writer registry *)

Module Registry.

(** What the registry reads of a [*Writer]: [w.o.b.Name], [w.name] and the
    identity of the pointer. *)
Record Writer := mkWriter {
  bucket_name : string;
  name : string;
  addr : nat
}.

(** The fields of [Client] the registry uses.  [sWriters] is nil until the
    first [addWriter]; [slock] is held for the whole of either function, so
    each is one atomic update. *)
Record Client := mkClient {
  sWriters : option (gmap string Writer)
}.

(** [fmt.Sprintf("%s/%s", w.o.b.Name, w.name)]. *)
Definition key (w : Writer) : string := bucket_name w +:+ "/" +:+ name w.

Definition addWriter (c : Client) (w : Writer) : Client :=
  let m := match sWriters c with
           | None => ∅
           | Some m => m
           end in
  mkClient (Some (<[key w := w]> m)).

Definition removeWriter (c : Client) (w : Writer) : Client :=
  match sWriters c with
  | None => c
  | Some m => mkClient (Some (delete (key w) m))
  end.

(** The entry under [k], if any. *)
Definition entry (c : Client) (k : string) : option Writer :=
  match sWriters c with
  | None => None
  | Some m => m !! k
  end.

End Registry.

(** ** What the [Write] calls have taken *)

(** The argument of the latest [Write] call. *)
Fixpoint cur_from (p0 : list byte) (t : list event) : list byte :=
  match t with
  | [] => p0
  | EvCallWrite p :: rest => cur_from p rest
  | _ :: rest => cur_from p0 rest
  end.

Definition cur (t : list event) : list byte := cur_from [] t.

(** A [Write] call that has returned: its argument [p] and the pair
    [(n, err)] it answered.  The caller is one thread, so a return belongs
    to the latest call. *)
Record write_result := WriteResult {
  wr_arg : list byte;
  wr_n : Z;
  wr_err : option error
}.

Fixpoint results_from (p0 : list byte) (t : list event) : list write_result :=
  match t with
  | [] => []
  | EvCallWrite p :: rest => results_from p rest
  | EvRetWrite n e :: rest => WriteResult p0 n e :: results_from p0 rest
  | _ :: rest => results_from p0 rest
  end.

Definition write_results (t : list event) : list write_result := results_from [] t.

(** The bytes the writer has taken from its caller, in order: of every
    [Write] that returned [n], the first [n] bytes of its argument. *)
Definition taken_by (r : write_result) : list byte :=
  take (Z.to_nat (wr_n r)) (wr_arg r).

Definition taken (t : list event) : list byte :=
  concat (map taken_by (write_results t)).

(** The bytes of a list of chunks, in order. *)
Definition payload (cs : list chunk) : list byte := concat (map chunk_buf cs).

(** The contract of [io.Writer]: [0 <= n <= len(p)], and a short count
    comes with an error. *)
Definition contract_ok (r : write_result) : Prop :=
  0 <= wr_n r <= len (wr_arg r) /\
  (wr_err r = None -> wr_n r = len (wr_arg r)).

(** Inside [Write]: the bytes still to be written are the argument without
    the [acc] bytes already consumed. *)
Definition wframe_ok (p : list byte) (m : pc) : Prop :=
  match m with
  | AtStart (FWrite acc rest) | AtSend (FWrite acc rest) =>
      0 <= acc <= len p /\ rest = drop (Z.to_nat acc) p
  | _ => True
  end.

Section BytesInvariant.
Context `{Hash}.

(** What the writer keeps of the bytes it is given. *)
Record Inv_bytes (W : World) : Prop := {
  bytes_frame : wframe_ok (cur (trace W)) (main W);
  bytes_kept : main W <> Panicked ->
               payload (submitted (trace W)) ++ cbuf (bw W) =
               taken (trace W) ++ take (Z.to_nat (pending (main W))) (cur (trace W));
  bytes_results : Forall contract_ok (write_results (trace W));
  bytes_bound : len (cbuf (bw W)) <= threshold;
  bytes_first : once (bw W) = true ->
                threshold <= accepted (trace W) + pending (main W)
}.

End BytesInvariant.

(** ** The pool of workers *)

(** The sum of [f] over the workers. *)
Definition tally (f : worker -> nat) (ws : list worker) : nat :=
  foldr (fun w s => (f w + s)%nat) 0%nat ws.

(** A worker inside the loop of [thread] (lines 119-130): it has added
    itself to [bw.wg] and has not returned. *)
Definition is_live (w : worker) : bool :=
  match w with
  | WRecv | WUpload _ | WResend _ => true
  | _ => false
  end.

Definition n_live (ws : list worker) : nat :=
  tally (fun w => if is_live w then 1%nat else 0%nat) ws.

(** A worker with a chunk in its hands: about to upload it or to send it
    back on the channel. *)
Definition is_holding (w : worker) : bool :=
  match w with
  | WUpload _ | WResend _ => true
  | _ => false
  end.

Definition holding (id : Z) (w : worker) : nat :=
  match w with
  | WUpload c | WResend c => if chunk_id c =? id then 1%nat else 0%nat
  | _ => 0%nat
  end.

(** The workers that hold part [id]. *)
Definition n_holding (id : Z) (ws : list worker) : nat := tally (holding id) ws.

(** A successful upload of part [id]. *)
Definition is_ok_part (id : Z) (e : event) : bool :=
  match e with
  | EvRemote (UploadPart _ _ _ i) OK => i =? id
  | _ => false
  end.

Definition is_part_url_ok (e : event) : bool :=
  match e with EvRemote GetUploadPartURL OK => true | _ => false end.

(** The successful upload of the chunk [c] as [sendChunk] made it. *)
Definition ok_upload (c : chunk) : event :=
  EvRemote (UploadPart (chunk_buf c) (chunk_sha1 c) (chunk_size c) (chunk_id c)) OK.

(** Every part ever handed over was uploaded successfully before
    [FinishLargeFile] was called. *)
Definition finish_after_parts (t : list event) : Prop :=
  forall i r, t !! i = Some (EvRemote FinishLargeFile r) ->
  forall c, c ∈ submitted t ->
  exists j, (j < i)%nat /\ t !! j = Some (ok_upload c).

Section PoolInvariant.
Context `{Hash}.

(** What the pool keeps: [bw.wg] counts the workers inside their loop; a
    part is in the hands of one worker or uploaded once; the caller gets
    past [wg.Wait()] only when no worker holds a chunk; a panic needs a
    closed channel; nothing is handed over before a worker has its upload
    endpoint. *)
Record Inv_pool (W : World) : Prop := {
  pool_wg : wg (bw W) = Z.of_nat (n_live (workers W));
  pool_once : forall id,
    (n_holding id (workers W) + count (is_ok_part id) (trace W))%nat =
    if (1 <=? id) && (id <=? cidx (bw W)) then 1%nat else 0%nat;
  pool_wait : main W = AtWait -> ready (bw W) = ChClosed;
  pool_finish : main W = AtFinish \/ count is_finish (trace W) <> 0%nat ->
                Forall (fun w => is_holding w = false) (workers W) /\
                ready (bw W) = ChClosed;
  pool_crash : (crashed W = true -> ready (bw W) = ChClosed) /\
               (main W = Panicked -> crashed W = true);
  pool_endpoint : count is_part_url_ok (trace W) = 0%nat ->
                  n_live (workers W) = 0%nat /\ submitted (trace W) = [] /\
                  ready (bw W) <> ChClosed
}.

End PoolInvariant.

(** ** The two upload paths *)

(** A call of the simple path ([simpleWriteFile]). *)
Definition is_simple (e : event) : bool :=
  match e with
  | EvRemote GetUploadURL _ | EvRemote (UploadFile _ _ _ _ _ _) _ => true
  | _ => false
  end.

Definition is_upload_file (e : event) : bool :=
  match e with EvRemote (UploadFile _ _ _ _ _ _) _ => true | _ => false end.

(** What the [Close] calls have returned. *)
Definition close_rets (t : list event) : list (option error) :=
  omap (fun e => match e with EvRetClose r => Some r | _ => None end) t.

(** The history up to the first [Close] call. *)
Fixpoint before_close (t : list event) : list event :=
  match t with
  | [] => []
  | EvCallClose :: _ => []
  | e :: rest => e :: before_close rest
  end.

Definition is_error_ret (e : event) : bool :=
  match e with
  | EvRetWrite _ (Some _) | EvRetClose (Some _) => true
  | _ => false
  end.

(** A call has returned an error. *)
Definition has_error (t : list event) : bool := existsb is_error_ret t.

(** The caller is inside the multi-part branch of [Close]. *)
Definition large_closing (m : pc) : bool :=
  match m with
  | AtStart FClose | AtSend FClose | AtWait | AtFinish => true
  | _ => false
  end.

Section PathsInvariant.
Context `{Hash}.

(** The call [ue.UploadFile(bw.ctx, bw.cbuf, bw.cbuf.Len(), bw.name,
    bw.ctype, sha1, bw.info)] of [simpleWriteFile] for a writer created
    with [nm], [ct] and [inf] whose buffer holds [d]. *)
Definition whole_object (nm ct : string) (inf : gmap string string)
    (d : list byte) : call :=
  UploadFile d (len d) nm ct (hex (hsum (hwrite hnew d))) inf.

Definition upfile_exact (nm ct : string) (inf : gmap string string)
    (d : list byte) (e : event) : Prop :=
  match e with
  | EvRemote (UploadFile data size n c sha i) _ =>
      UploadFile data size n c sha i = whole_object nm ct inf d
  | _ => True
  end.

(** The remote calls of a writer whose only [Close] took the simple path
    and returned. *)
Definition simple_done (nm ct : string) (inf : gmap string string)
    (t : list event) : Prop :=
  (exists err, remote_calls t = [(GetUploadURL, Fail err)] /\
               head (close_rets t) = Some (Some err)) \/
  (exists r, remote_calls t =
               [(GetUploadURL, OK);
                (whole_object nm ct inf (taken (before_close t)), r)] /\
             head (close_rets t) = Some (err_of r)).

(** The remote calls of a writer that has not called [sendChunk]. *)
Definition simple_state (nm ct : string) (inf : gmap string string)
    (W : World) : Prop :=
  match main W with
  | Idle => if done (bw W) then simple_done nm ct inf (trace W)
            else remote_calls (trace W) = []
  | AtGetUploadURL => remote_calls (trace W) = []
  | AtUploadFile => remote_calls (trace W) = [(GetUploadURL, OK)]
  | _ => True
  end.

(** What the writer keeps of the path it has taken. *)
Record Inv_paths (nm0 ct0 : string) (inf0 : gmap string string) (W : World) : Prop := {
  paths_pre : done (bw W) = false ->
              count is_simple (trace W) = 0%nat /\ close_rets (trace W) = [];
  paths_closing : closing (main W) = true -> close_rets (trace W) = [];
  paths_upfile : main W = AtGetUploadURL \/ main W = AtUploadFile ->
                 cbuf (bw W) = taken (before_close (trace W)) /\
                 count is_upload_file (trace W) = 0%nat;
  paths_exact : has_close (trace W) = true ->
                Forall (upfile_exact nm0 ct0 inf0 (taken (before_close (trace W))))
                  (trace W);
  paths_one : (count is_upload_file (trace W) <= 1)%nat;
  paths_simple : once (bw W) = false -> simple_state nm0 ct0 inf0 W;
  paths_large : large_closing (main W) = true -> count is_simple (trace W) = 0%nat;
  paths_clean : clean (trace W) = true ->
                cidx (bw W) <> 0 \/ in_write (main W) = true ->
                count is_simple (trace W) = 0%nat;
  paths_finish : done (bw W) = true -> clean (trace W) = true ->
                 cidx (bw W) <> 0 -> main W = Idle ->
                 count is_finish (trace W) = 1%nat;
  paths_wedge : once (bw W) = true -> ready (bw W) = ChNil ->
                (forall k, main W <> AtStart k) -> has_error (trace W) = true
}.

(** Everything that holds of the worlds a writer created with [nm], [ct]
    and [inf] can get to. *)
Record Good (nm ct : string) (inf : gmap string string) (W : World) : Prop := {
  good_inv : Inv nm ct inf W;
  good_bytes : Inv_bytes W;
  good_pool : Inv_pool W;
  good_paths : Inv_paths nm ct inf W;
  good_order : finish_after_parts (trace W)
}.

End PathsInvariant.

(** ** More concrete runs *)

(** One write below the threshold and [Close], every call granted. *)
Definition upload_small (p : list byte) : list action :=
  [CallWrite p; CallClose; MainRemote OK; MainRemote OK].

(** One worker, and it is refused its upload endpoint. *)
Definition endpoint_refused (p : list byte) (err : error) : list action :=
  [CallWrite p; MainRemote OK; WorkerRemote 0 (Fail err)].

Section Stuck.
Context `{Hash}.

(** The only worker of the pool is left with the chunk [c], whose upload
    has failed: it is at the send of line 127, and no worker is at the
    receive of line 120. *)
Definition lone_failure (c : chunk) (W : World) : Prop :=
  workers W = [WResend c] /\ once (bw W) = true /\ 0 < wg (bw W) /\
  (forall k, main W <> AtStart k) /\ main W <> AtFinish /\
  count is_finish (trace W) = 0%nat.

End Stuck.

(** ** The large-file session *)

(** [StartLargeFile] is called for the object the writer was created for. *)
Definition start_named (nm ct : string) (inf : gmap string string) (e : event) : Prop :=
  match e with
  | EvRemote (StartLargeFile n c i) _ => n = nm /\ c = ct /\ i = inf
  | _ => True
  end.

Section Session.
Context `{Hash}.

Record Inv_session (nm ct : string) (inf : gmap string string) (W : World) : Prop := {
  session_file : ready (bw W) <> ChNil -> file (bw W) = true;
  session_named : Forall (start_named nm ct inf) (trace W)
}.

End Session.

(** ** Keys of the registry *)

(** The character of the separator ["/"] (code 47). *)
Definition slash : Ascii.ascii := Eval cbv in Ascii.ascii_of_N 47.

(** The string holds no ["/"]. *)
Fixpoint no_slash (s : string) : bool :=
  match s with
  | EmptyString => true
  | String a rest => negb (Ascii.eqb a slash) && no_slash rest
  end.

(** ** The client and its buckets *)

Module Buckets.

(** Modelled from the spec: the session that [authorize] returns and a
    container of [listContainers] (types [base.B2] and [base.Bucket], whose
    code is not among the sources).  [Bucket] reads the field [Name] of a
    container; the number stands for the identity of the pointer. *)
Record base_B2 := mkB2 {
  session : nat
}.

Record base_Bucket := mkBaseBucket {
  Name : string;
  bucket_id : nat
}.

(** [type Client struct] (lines 18-20) and [type Bucket struct] (lines
    34-36). *)
Record Client := mkClient {
  b2 : base_B2
}.

Record Bucket := mkBucket {
  b : base_Bucket
}.

(** [NewClient] (lines 23-31); [auth] is what [base.B2AuthorizeAccount]
    answers. *)
Definition NewClient (auth : base_B2 + error) : Client + error :=
  match auth with
  | inr err => inr err
  | inl session => inl (mkClient session)
  end.

(** The loop of [Bucket] (lines 44-50): the first bucket of that name. *)
Fixpoint find_bucket (name : string) (buckets : list base_Bucket) : option Bucket :=
  match buckets with
  | [] => None
  | bucket :: rest =>
      if String.eqb (Name bucket) name then Some (mkBucket bucket)
      else find_bucket name rest
  end.

(** [(c *Client) Bucket] (lines 39-53); [listing] is what
    [c.b2.ListBuckets] answers. *)
Definition Client_Bucket (c : Client) (listing : list base_Bucket + error)
    (name : string) : Bucket + error :=
  match listing with
  | inr err => inr err
  | inl buckets =>
      match find_bucket name buckets with
      | Some bucket => inl bucket
      | None => inr (name +:+ ": no such bucket")
      end
  end.

End Buckets.

(** * Lemmas *)

(** ** Histories and lengths *)

Lemma pick_app f t l : pick f (t ++ l) = pick f t ++ pick f l.
Proof. apply omap_app. Qed.

Lemma count_app f t l : count f (t ++ l) = (count f t + count f l)%nat.
Proof. unfold count. rewrite pick_app. apply length_app. Qed.

Lemma submitted_app t l : submitted (t ++ l) = submitted t ++ submitted l.
Proof. apply omap_app. Qed.

Lemma remote_calls_app t l : remote_calls (t ++ l) = remote_calls t ++ remote_calls l.
Proof. apply omap_app. Qed.

Lemma history_app t l : history (t ++ l) = history t ++ history l.
Proof. apply pick_app. Qed.

Lemma accepted_app t l : accepted (t ++ l) = accepted t + accepted l.
Proof.
  induction t as [|e t IH]; simpl; [lia|].
  destruct e; rewrite ?IH; lia.
Qed.

Lemma total_size_app cs ds : total_size (cs ++ ds) = total_size cs + total_size ds.
Proof. induction cs as [|c cs IH]; simpl; lia. Qed.

Lemma has_close_app t l : has_close (t ++ l) = has_close t || has_close l.
Proof. apply existsb_app. Qed.

Lemma clean_app t l :
  clean (t ++ l) =
  clean t && (if has_close t then negb (existsb is_call_write l) else clean l).
Proof.
  induction t as [|e t IH]; simpl; [done|].
  destruct e; simpl; rewrite ?IH; try done.
  rewrite existsb_app, negb_orb. by destruct (existsb is_call_write t).
Qed.

Lemma in_call_app t l :
  in_call (t ++ l) = if decide (history l = []) then in_call t else in_call l.
Proof.
  unfold in_call. rewrite history_app.
  destruct (decide (history l = [])) as [->|Hne]; [by rewrite app_nil_r|].
  destruct (history l) as [|e h] eqn:E using rev_ind; [done|].
  by rewrite app_assoc, !last_snoc.
Qed.

Lemma len_nil : len [] = 0.
Proof. done. Qed.

Lemma len_app p q : len (p ++ q) = len p + len q.
Proof. unfold len. rewrite length_app. lia. Qed.

Lemma len_nonneg p : 0 <= len p.
Proof. unfold len. lia. Qed.

Lemma len_take n p : 0 <= n <= len p -> len (take (Z.to_nat n) p) = n.
Proof. unfold len. rewrite length_take. lia. Qed.

Lemma len_drop n p : 0 <= n <= len p -> len (drop (Z.to_nat n) p) = len p - n.
Proof. unfold len. rewrite length_drop. lia. Qed.

Lemma len_zero p : len p <= 0 -> p = [].
Proof. destruct p; [done|]. unfold len; simpl; lia. Qed.

Lemma len_zeros n : 0 <= n -> len (zeros n) = n.
Proof. intros Hn. unfold len, zeros. rewrite length_replicate. lia. Qed.

#[global] Opaque zeros.

Lemma take_all (p : list byte) n : len p <= n -> take (Z.to_nat n) p = p.
Proof. intros Hn. apply take_ge. unfold len in Hn. lia. Qed.

Lemma drop_all (p : list byte) n : len p <= n -> drop (Z.to_nat n) p = [].
Proof. intros Hn. apply drop_ge. unfold len in Hn. lia. Qed.


Lemma accepted_history t : accepted (history t) = accepted t.
Proof. induction t as [|e t IH]; [done|]. destruct e; simpl; by rewrite ?IH. Qed.

Lemma has_close_history t : has_close (history t) = has_close t.
Proof. induction t as [|e t IH]; [done|]. destruct e; simpl; by rewrite ?IH. Qed.

Lemma has_write_history t :
  existsb is_call_write (history t) = existsb is_call_write t.
Proof. induction t as [|e t IH]; [done|]. destruct e; simpl; by rewrite ?IH. Qed.

Lemma clean_history t : clean (history t) = clean t.
Proof.
  induction t as [|e t IH]; [done|].
  destruct e; simpl; rewrite ?IH, ?has_write_history; done.
Qed.

Lemma in_call_history t : in_call t = match last (history t) with
                                      | Some (EvCallWrite _) | Some EvCallClose => true
                                      | _ => false
                                      end.
Proof. done. Qed.

Lemma accepted_writes_ok ps : accepted (writes_ok ps) = total_len ps.
Proof. induction ps as [|p ps IH]; simpl; [done|]. unfold total_len in *. simpl. lia. Qed.

Lemma has_close_writes_ok ps : has_close (writes_ok ps) = false.
Proof. induction ps as [|p ps IH]; simpl; done. Qed.

Lemma clean_writes_ok ps : clean (writes_ok ps) = true.
Proof. induction ps as [|p ps IH]; simpl; done. Qed.




Lemma n_geturl_app ws vs : n_geturl (ws ++ vs) = (n_geturl ws + n_geturl vs)%nat.
Proof. induction ws as [|w ws IH]; simpl; [done|]. rewrite IH. lia. Qed.

Lemma n_geturl_replicate n : n_geturl (replicate n WGetURL) = n.
Proof. induction n as [|n IH]; simpl; [done|]. by rewrite IH. Qed.

Lemma n_geturl_insert ws i w0 w :
  ws !! i = Some w0 ->
  (n_geturl (<[i:=w]> ws) + (if is_geturl w0 then 1 else 0) =
   n_geturl ws + (if is_geturl w then 1 else 0))%nat.
Proof.
  revert i. induction ws as [|v ws IH]; intros [|i] Hi; simplify_eq/=; [lia|].
  specialize (IH _ Hi). lia.
Qed.

Lemma part_of_mono subs l c : part_of subs c -> part_of (subs ++ l) c.
Proof. intros (c0 & Hin & Hs). exists c0. split; [|done]. apply elem_of_app. by left. Qed.

Lemma held_ok_mono subs l w : held_ok subs w -> held_ok (subs ++ l) w.
Proof. destruct w; simpl; intuition auto using part_of_mono. Qed.

Lemma part_event_ok_mono subs l e : part_event_ok subs e -> part_event_ok (subs ++ l) e.
Proof.
  destruct e as [| | | |c r| | |]; simpl; try done.
  - destruct c; try done. intros (c0 & Hin & Hs). exists c0. split; [|done].
    apply elem_of_app. by left.
  - intuition auto using part_of_mono.
Qed.

Lemma part_of_last subs c : 0 <= chunk_attempt c -> part_of (subs ++ [c]) c.
Proof.
  intros Hc. exists c. split; [apply elem_of_app; right; by apply list_elem_of_singleton|].
  by repeat split.
Qed.

Lemma ids_snoc subs c :
  map chunk_id subs = map Z.of_nat (seq 1 (length subs)) ->
  chunk_id c = Z.of_nat (length subs) + 1 ->
  map chunk_id (subs ++ [c]) = map Z.of_nat (seq 1 (length subs + 1)).
Proof.
  intros Hids Hc. rewrite map_app, seq_app, map_app, Hids. simpl.
  do 2 f_equal. lia.
Qed.

Lemma same_part_bump c0 c : same_part c0 c -> same_part c0 (bump c).
Proof. unfold same_part, bump; simpl. intuition lia. Qed.

Lemma part_of_bump subs c : part_of subs c -> part_of subs (bump c) /\ 1 <= chunk_attempt (bump c).
Proof.
  intros (c0 & Hin & Hs). split; [exists c0; auto using same_part_bump|].
  destruct Hs as (_ & _ & _ & _ & ?). simpl. lia.
Qed.

Lemma followed_app P Q t l :
  followed P Q t ->
  (forall j e, l !! j = Some e -> P (t ++ take j l) e ->
     exists e', l !! S j = Some e' /\ Q e e') ->
  followed P Q (t ++ l).
Proof.
  intros Ht Hl i e Hi HP.
  destruct (decide (i < length t)%nat) as [Hlt|Hge].
  - rewrite lookup_app_l in Hi by done.
    rewrite take_app_le in HP by lia.
    destruct (Ht i e Hi HP) as (e' & He' & HQ).
    exists e'. split; [|done]. by apply lookup_app_l_Some.
  - rewrite lookup_app_r in Hi by lia.
    rewrite take_app_ge in HP by lia.
    destruct (Hl _ e Hi HP) as (e' & He' & HQ).
    exists e'. split; [|done].
    rewrite lookup_app_r by lia.
    by replace (S i - length t)%nat with (S (i - length t)) by lia.
Qed.

Lemma preceded_app P Q t l :
  preceded P Q t ->
  (forall j e, l !! j = Some e -> P e ->
     exists j' e', j = S j' /\ l !! j' = Some e' /\ Q e' e) ->
  preceded P Q (t ++ l).
Proof.
  intros Ht Hl i e Hi HP.
  destruct (decide (i < length t)%nat) as [Hlt|Hge].
  - rewrite lookup_app_l in Hi by done.
    destruct (Ht i e Hi HP) as (j & e' & -> & He' & HQ).
    exists j, e'. split; [done|]. split; [|done]. by apply lookup_app_l_Some.
  - rewrite lookup_app_r in Hi by lia.
    destruct (Hl _ e Hi HP) as (j' & e' & Hj & He' & HQ).
    exists (length t + j')%nat, e'. split; [lia|]. split; [|done].
    rewrite lookup_app_r by lia.
    by replace (length t + j' - length t)%nat with j' by lia.
Qed.

Lemma Shape_nil : Shape [].
Proof. by constructor; intros i e Hi. Qed.




(** ** Tactics *)

Ltac unfold_model :=
  cbv beta iota zeta delta
    [step main_step worker_step Write Close sendChunk send
     close_ready started sent got_upload_url uploaded_file finished
     got_part_url uploaded_part ret_err ret_write ret_close goto record
     with_bw set_worker spawn panic worker_panic set_ConcurrentUploads
     set_TotalRetries set_ready set_wg set_once set_done set_file
     w_Write reset_chunk sealed
     bw main workers trace crashed
     ConcurrentUploads TotalRetries ready wg once done file name ctype info
     cbuf cidx chsh] in *.

Ltac norm :=
  rewrite ?clean_app, ?submitted_app, ?count_app, ?accepted_app,
    ?has_close_app, ?in_call_app, ?total_size_app, ?len_app, ?length_app,
    ?app_nil_r;
  cbn [submitted count pick omap list_omap history accepted has_close clean in_call
       total_size existsb is_api is_call_write is_call_close is_start
       is_finish is_part_url foldr last length app negb andb orb
       closing in_write at_rest is_idle pending mbind option_bind
       chunk_id chunk_attempt chunk_size chunk_sha1 chunk_buf];
  rewrite ?len_nil, ?app_nil_r, ?Nat.add_0_r, ?Z.add_0_r, ?orb_false_r, ?andb_true_r.

Ltac to_prop :=
  repeat match goal with
  | H : (_ <? _) = true |- _ => apply Z.ltb_lt in H
  | H : (_ <? _) = false |- _ => apply Z.ltb_ge in H
  | H : (_ =? _) = true |- _ => apply Z.eqb_eq in H
  | H : (_ =? _) = false |- _ => apply Z.eqb_neq in H
  end.

Ltac prep :=
  intros;
  repeat match goal with
  | H : _ /\ _ |- _ => destruct H
  | H : Idle <> Panicked -> _ |- _ => specialize (H ltac:(discriminate))
  | H : AtStart _ <> Panicked -> _ |- _ => specialize (H ltac:(discriminate))
  | H : AtSend _ <> Panicked -> _ |- _ => specialize (H ltac:(discriminate))
  | H : AtGetUploadURL <> Panicked -> _ |- _ => specialize (H ltac:(discriminate))
  | H : AtUploadFile <> Panicked -> _ |- _ => specialize (H ltac:(discriminate))
  | H : AtWait <> Panicked -> _ |- _ => specialize (H ltac:(discriminate))
  | H : AtFinish <> Panicked -> _ |- _ => specialize (H ltac:(discriminate))
  | H : forall k, AtStart ?k0 = AtStart k -> _ |- _ => specialize (H k0 eq_refl)
  | H : true = true -> _ |- _ => specialize (H eq_refl)
  | H : false = false -> _ |- _ => specialize (H eq_refl)
  | H : ChNil = ChNil -> _ |- _ => specialize (H eq_refl)
  | H : ChClosed = ChClosed -> _ |- _ => specialize (H eq_refl)
  | H : ?P -> _, H' : ?P |- _ => specialize (H H')
  end.

Ltac fin := solve [ done | lia | congruence | tauto | (repeat split; (done || lia || congruence || tauto)) ].

Ltac split_or :=
  repeat match goal with
  | H : _ \/ _ |- _ => destruct H
  end.

Ltac solve_len :=
  rewrite ?len_nil, ?len_app;
  repeat (rewrite len_take by (rewrite ?len_nil; lia));
  repeat (rewrite len_drop by (rewrite ?len_nil; lia));
  rewrite ?len_nil; lia.

Ltac decide_test :=
  match goal with
  | |- context [?a <? ?b] =>
      first [ rewrite (proj2 (Z.ltb_lt a b)) by solve_len
            | rewrite (proj2 (Z.ltb_ge a b)) by solve_len ]
  | |- context [?a =? ?b] =>
      first [ rewrite (proj2 (Z.eqb_eq a b)) by solve_len
            | rewrite (proj2 (Z.eqb_neq a b)) by solve_len ]
  end.

Ltac tidy :=
  rewrite ?len_nil, ?Z.sub_0_r, ?Z.add_0_l in *;
  rewrite ?take_all, ?drop_all by lia;
  rewrite ?len_nil, ?Z.add_0_r.

(** ** The invariant is kept *)

Section Proofs.
Context `{Hash}.

Lemma Inv_init nm ct inf : Inv nm ct inf (NewWorld nm ct inf).
Proof.
  pose proof threshold_pos.
  constructor; cbn; rewrite ?hwrite_nil; try done; try lia; auto.
Qed.

Ltac t_lock := try solve [rewrite ?hwrite_app, ?hwrite_nil, ?app_nil_r; done].

Ltac t_forall_events H mono :=
  try solve
    [ repeat (apply Forall_app; split);
      first
        [ exact H
        | (eapply Forall_impl; [exact H|]; intros; by apply mono)
        | (repeat constructor; simpl; prep; eauto using part_of_mono; try fin;
           match goal with
           | Hp : part_of _ _ |- _ =>
               destruct Hp as (c0 & Hin & Hid & Hsz & Hsh & Hbf & Hat);
               exists c0; repeat split; congruence
           end) ] ].

Ltac t_held :=
  try solve
    [ repeat first
        [ apply Forall_insert
        | apply Forall_app_2
        | apply Forall_replicate
        | exact I
        | assumption
        | (eapply Forall_impl; [eassumption|]; intros; by apply held_ok_mono) ];
      simpl; prep; eauto using part_of_mono, part_of_last;
      try (split; [|simpl; lia]); eauto using part_of_mono, part_of_last; try fin;
      try (apply part_of_last; simpl; lia);
      try (apply part_of_bump; assumption) ].

Ltac t_sizes :=
  try solve
    [ cbv [buf_ok cbuf once ready] in *; prep; split_or; prep; subst; try discriminate;
      first
        [ left; repeat (apply Forall_app; split); try done;
          repeat constructor; unfold full; simpl; lia
        | right; split; [done|]; eexists _, _; split; [reflexivity|];
          split; [done|simpl; lia] ] ].

Ltac t_prop := try solve [prep; split_or; prep; subst; fin].

Ltac t_buf :=
  try solve
    [ cbv [buf_ok cbuf once ready] in *; rewrite ?len_app, ?len_nil;
      rewrite ?len_take by lia; prep;
      repeat match goal with
      | E : submitted _ = [] |- _ => rewrite E in *; clear E
      end; simpl in *;
      repeat match goal with
      | m : pc |- _ => destruct m
      | k : frame |- _ => destruct k
      end; prep; split_or; prep; subst; fin ].

Ltac t_cons :=
  try solve [ rewrite ?len_take by lia; prep; split_or; prep; subst;
              repeat match goal with
              | m : pc |- _ => destruct m
              | k : frame |- _ => destruct k
              end; cbn [pending] in *; fin ].

Ltac forget_bools :=
  repeat match goal with
  | H : context [has_close ?t] |- _ =>
      let b := fresh "b" in set (b := has_close t) in *; clearbody b; destruct b
  | |- context [has_close ?t] =>
      let b := fresh "b" in set (b := has_close t) in *; clearbody b; destruct b
  | H : context [clean ?t] |- _ =>
      let b := fresh "b" in set (b := clean t) in *; clearbody b; destruct b
  | |- context [clean ?t] =>
      let b := fresh "b" in set (b := clean t) in *; clearbody b; destruct b
  end.

Ltac t_bool :=
  try solve
    [ intros; forget_bools; simpl in *; prep; split_or; prep; subst;
      repeat match goal with
      | m : pc |- _ => destruct m
      | k : frame |- _ => destruct k
      end; simpl in *; prep; try fin;
      try (apply len_zero; lia) ].

Ltac t_pool :=
  try solve
    [ rewrite ?length_app, ?length_insert, ?n_geturl_app, ?n_geturl_replicate,
        ?length_replicate;
      repeat match goal with
      | Hl : ?l !! ?i = Some ?w0 |- context [n_geturl (<[?i:=?w]> ?l)] =>
          let Hn := fresh "Hn" in
          pose proof (n_geturl_insert l i w0 w Hl) as Hn; simpl in Hn; revert Hl
      end; intros; lia ].

Ltac t_digest :=
  try solve [ apply Forall_app; split; [done|];
              repeat constructor; simpl; done ].

Ltac t_empty :=
  try solve
    [ rewrite ?Forall_app, ?Forall_cons, ?Forall_nil; cbn [empty_write];
      prep; subst; rewrite ?app_nil_r, ?len_nil in *;
      prep; split_or; prep; subst; try fin ].

Lemma Inv_step nm0 ct0 inf0 W a W' :
  Inv nm0 ct0 inf0 W -> step W a = Some W' -> Inv nm0 ct0 inf0 W'.
Proof.
  intros [Hname Hlock Hcidx Hids Hdig Hupf Hheld Hparts Honce Hnil Hstart
          Hatstart Hdone Hclosed Hclosing Hfinish Hsimple Hbuf Hcons Hsizes
          Hflushed Hdirty Hincall Hpool Hempty] Hs.
  destruct W as [[cu tr rd wgc on dn fl nm ct inf cb ci ch] m ws t cr].
  unfold_model.
  repeat case_match; simplify_eq.
  all: to_prop.
  all: cbn [closing in_write at_rest is_idle pending negb] in *.
  all: rewrite ?len_nil in *.
  all: pose proof threshold_pos as Hthr; pose proof (len_nonneg cb) as Hcb.
  all: repeat match goal with
       | Hh : Forall (held_ok _) ?l, Hl : ?l !! _ = Some _ |- _ =>
           let Hw := fresh "Hw" in
           pose proof (Forall_lookup_1 _ _ _ _ Hh Hl) as Hw; simpl in Hw; revert Hl
       end; intros.
  all: constructor; unfold_model; norm;
    [ idtac | t_lock | try lia
    | try (apply ids_snoc; [done|simpl; lia]) | t_digest
    | t_forall_events Hupf part_event_ok_mono
    | t_held
    | t_forall_events Hparts part_event_ok_mono
    | t_prop | t_prop
    | t_prop | t_prop | t_prop
    | t_prop | t_prop
    | t_prop | t_prop | t_buf
    | t_cons | t_sizes
    | t_bool | t_bool | t_prop
    | t_pool | t_empty ].
  all: try done.
  match goal with
  | Hi : ?l !! ?i = Some (WResend ?c), Hj : ?l !! ?j = Some WRecv
    |- context [n_geturl (<[?j:=_]> (<[?i:=_]> ?l))] =>
      assert (i <> j) as Hij by congruence;
      pose proof (n_geturl_insert l i _ WRecv Hi) as Hn1;
      pose proof (n_geturl_insert (<[i:=WRecv]> l) j WRecv (WUpload c)) as Hn2;
      rewrite list_lookup_insert_ne in Hn2 by done;
      specialize (Hn2 Hj); rewrite !length_insert; simpl in *; lia
  end.
Qed.

Lemma Inv_run nm0 ct0 inf0 acts : forall W W',
  Inv nm0 ct0 inf0 W -> run W acts = Some W' -> Inv nm0 ct0 inf0 W'.
Proof.
  induction acts as [|a acts IH]; intros W W' HI Hr; simpl in Hr.
  - by simplify_eq.
  - destruct (step W a) as [W1|] eqn:Hs; [|done].
    eauto using Inv_step.
Qed.

Ltac shape_block :=
  let j := fresh "j" in let e := fresh "e" in
  let Hj := fresh "Hj" in let HP := fresh "HP" in
  intros j e Hj HP;
  repeat (destruct j as [|j]; simplify_eq/=);
  cbv [caller_failure worker_failure surfaces only_logged later_close
       returns_nil error_return caused_by returns] in *.

Lemma Shape_step nm0 ct0 inf0 W a W' :
  Inv nm0 ct0 inf0 W -> Shape (trace W) -> step W a = Some W' -> Shape (trace W').
Proof.
  intros [_ _ _ _ _ _ _ _ _ _ _ _ Hdone _ _ _ _ _ _ _ _ _ _ _ _] [Hc Hw Hcl He] Hs.
  destruct W as [[cu tr rd wgc on dn fl nm ct inf cb ci ch] m ws t cr].
  unfold_model.
  repeat case_match; simplify_eq.
  all: unfold_model; try (by constructor).
  all: rewrite <- ?(assoc_L (++)); cbn [app].
  all: constructor; first [apply followed_app | apply preceded_app]; try done.
  all: shape_block.
  all: rewrite ?app_nil_r in *.
  all: try match goal with r : result |- _ => destruct r; simpl in * end.
  all: repeat match goal with
       | HP : exists _, _ |- _ => destruct HP
       | HP : _ /\ _ |- _ => destruct HP
       | HP : _ \/ _ |- _ => destruct HP
       end; simplify_eq/=; try congruence.
  all: try (eexists; split; [reflexivity|]; intros; simplify_eq;
            first [ done | left; eexists; reflexivity | right; reflexivity ]).
  all: eexists _, _; split; [reflexivity|]; split; [reflexivity|];
       eexists _, _; split; [reflexivity|]; split; [reflexivity|];
       first [ left; eexists; reflexivity | right; reflexivity ].
Qed.

Lemma Shape_run nm0 ct0 inf0 acts : forall W W',
  Inv nm0 ct0 inf0 W -> Shape (trace W) -> run W acts = Some W' -> Shape (trace W').
Proof.
  induction acts as [|a acts IH]; intros W W' HI HS Hr; simpl in Hr.
  - by simplify_eq.
  - destruct (step W a) as [W1|] eqn:Hs; [|done].
    eauto using Inv_step, Shape_step.
Qed.

Lemma Shape_reachable W : reachable W -> Shape (trace W).
Proof.
  intros (nm & ct & inf & acts & Hr).
  eapply Shape_run; [apply Inv_init|apply Shape_nil|done].
Qed.

(** ** Runs *)

Lemma run_cons W a W1 acts W' :
  step W a = Some W1 -> run W1 acts = Some W' -> run W (a :: acts) = Some W'.
Proof. intros Hs Hr. simpl. by rewrite Hs. Qed.

Lemma run_app W acts1 acts2 W1 W2 :
  run W acts1 = Some W1 -> run W1 acts2 = Some W2 -> run W (acts1 ++ acts2) = Some W2.
Proof.
  revert W. induction acts1 as [|a acts1 IH]; intros W Hr1 Hr2; simpl in *.
  - by simplify_eq.
  - destruct (step W a); [eauto|done].
Qed.

Ltac exec_one := unfold_model; repeat decide_test; simpl; reflexivity.
Ltac exec := repeat (eapply run_cons; [exec_one|]); reflexivity.





Lemma run_upload_exact nm ct inf p :
  len p = threshold ->
  exists W,
    run (NewWorld nm ct inf) (upload_exact p) = Some W /\
    history (trace W) =
      [EvCallWrite p; EvRetWrite threshold None; EvCallClose; EvRetClose None] /\
    remote_calls (trace W) =
      [(StartLargeFile nm ct inf, OK); (GetUploadPartURL, OK);
       (UploadPart p (hex (hsum (hwrite hnew p))) threshold 1, OK);
       (FinishLargeFile, OK)].
Proof.
  intros Hp. pose proof threshold_pos as HT.
  eexists. split; [unfold NewWorld, NewWriter, upload_exact; exec|].
  simpl. tidy. rewrite ?Hp. done.
Qed.

Lemma run_upload_one_endpoint_refused nm ct inf p err :
  len p = threshold ->
  exists W,
    run (NewWorld nm ct inf) (upload_one_endpoint_refused p err) = Some W /\
    main W = Idle /\
    trace W !! 2%nat = Some (EvRemote GetUploadPartURL (Fail err)) /\
    history (trace W) =
      [EvCallWrite p; EvRetWrite threshold None; EvCallClose; EvRetClose None].
Proof.
  intros Hp. pose proof threshold_pos as HT.
  eexists. split; [unfold NewWorld, NewWriter, upload_one_endpoint_refused; exec|].
  simpl. tidy. rewrite ?Hp. done.
Qed.


Lemma run_first_upload_fails nm ct inf p err :
  len p = threshold ->
  exists W,
    run (NewWorld nm ct inf) (first_upload_fails p err) = Some W /\
    crashed W = false /\
    workers W = [WResend (Chunk 1 1 threshold (hex (hsum (hwrite hnew p))) p)] /\
    submitted (trace W) = [Chunk 1 0 threshold (hex (hsum (hwrite hnew p))) p].
Proof.
  intros Hp. pose proof threshold_pos as HT.
  eexists. split; [unfold NewWorld, NewWriter, first_upload_fails; exec|].
  simpl. tidy. rewrite ?Hp. done.
Qed.

(** The start-session call of the first overflow fails. *)
Lemma run_overflow nm ct inf p :
  threshold <= len p ->
  exists W,
    run (NewWorld nm ct inf) [CallWrite p] = Some W /\
    main W = AtStart (FWrite threshold (drop (Z.to_nat threshold) p)) /\
    crashed W = false.
Proof.
  intros Hp. pose proof threshold_pos as HT.
  eexists. split; [unfold NewWorld, NewWriter; exec|].
  simpl. tidy. done.
Qed.

Lemma run_start_fails nm ct inf p err :
  threshold <= len p ->
  exists W,
    run (NewWorld nm ct inf) [CallWrite p; MainRemote (Fail err)] = Some W /\
    trace W !! 1%nat = Some (EvRemote (StartLargeFile nm ct inf) (Fail err)).
Proof.
  intros Hp. pose proof threshold_pos as HT.
  eexists. split; [unfold NewWorld, NewWriter; exec|]. done.
Qed.


Lemma run_close_refused nm ct inf err :
  exists W,
    run (NewWorld nm ct inf) [CallClose; MainRemote OK; MainRemote (Fail err)] = Some W /\
    has_close (trace W) = true /\ main W = Idle /\ crashed W = false /\
    history (trace W) = [EvCallClose; EvRetClose (Some err)].
Proof. eexists. split; [unfold NewWorld, NewWriter; exec|]. done. Qed.





(** * Theorems *)

(** C2, amended.  A failure of a call the caller thread makes itself (so of
    the calls that start and that finish a session) is followed at once by
    the return of the [Write] or [Close] in progress, with that error, and
    each of the two calls is made at most once.  A failure of a call a
    worker makes (so of the call for its upload endpoint) is followed by
    its log entry: the worker exits, the caller thread is left as it was,
    and no return carries the error, since an error that is returned comes
    right after a failed call of the caller thread.  Every worker asks for
    its endpoint at most once. *)
Theorem session_errors nm ct inf acts W :
  run (NewWorld nm ct inf) acts = Some W ->
  (forall i c err, trace W !! i = Some (EvRemote c (Fail err)) ->
     caller_call c = true ->
     exists e', trace W !! S i = Some e' /\ returns err e') /\
  (count is_start (trace W) <= 1)%nat /\
  (count is_finish (trace W) <= 1)%nat /\
  (forall i c err, trace W !! i = Some (EvRemote c (Fail err)) ->
     caller_call c = false -> trace W !! S i = Some (EvLog err)) /\
  (forall i e err, trace W !! i = Some e -> returns err e ->
     exists j c, i = S j /\ trace W !! j = Some (EvRemote c (Fail err)) /\
                 caller_call c = true) /\
  (forall i err, crashed W = false -> workers W !! i = Some WGetURL ->
     step W (WorkerRemote i (Fail err)) =
       Some (mkWorld (bw W) (main W) (<[i:=WExit]> (workers W))
               (trace W ++ [EvRemote GetUploadPartURL (Fail err); EvLog err]) false)) /\
  (count is_part_url (trace W) <= length (workers W))%nat.
Proof.
  intros Hrun.
  pose proof (Inv_run _ _ _ _ _ _ (Inv_init nm ct inf) Hrun) as HI.
  assert (Shape (trace W)) as HS by (apply Shape_reachable; by exists nm, ct, inf, acts).
  split.
  { intros i c err Hi Hc.
    destruct (shape_caller _ HS i _ Hi) as (e' & He' & Hq); [by exists c, err|].
    exists e'. split; [done|]. by apply (Hq c err). }
  split; [apply (inv_start _ _ _ _ HI)|].
  split; [apply (inv_finish _ _ _ _ HI)|].
  split.
  { intros i c err Hi Hc.
    destruct (shape_worker _ HS i _ Hi) as (e' & He' & Hq); [by exists c, err|].
    by rewrite He', (Hq c err). }
  split.
  { intros i e err Hi Hr.
    destruct (shape_error _ HS i _ Hi) as (j & e0 & -> & Hj & c & err' & -> & Hc & Hr');
      [by exists err|].
    exists j, c. split; [done|]. split; [|done].
    assert (err' = err) as ->; [|done].
    destruct Hr as [[n ->]| ->], Hr' as [[n' ?]|?]; congruence. }
  split.
  { intros i err Hcr Hi. destruct W as [b m ws t cr]. simpl in *. subst.
    unfold step, worker_step. simpl. rewrite Hi.
    unfold got_part_url, set_worker, record. simpl.
    by rewrite <- (assoc_L (++)). }
  pose proof (inv_pool _ _ _ _ HI). lia.
Qed.



(** C5.  In every history, each call of [Close] after the first is followed
    at once by its return, with no error: nothing happens in between.  And
    such a call can always be made: with the caller at rest, [Close] on a
    writer that was closed before returns [nil] in one step and changes
    nothing but the history. *)
Theorem close_is_idempotent nm ct inf acts W :
  run (NewWorld nm ct inf) acts = Some W ->
  (forall i, trace W !! i = Some EvCallClose -> has_close (take i (trace W)) = true ->
             trace W !! S i = Some (EvRetClose None)) /\
  (has_close (trace W) = true -> main W = Idle -> crashed W = false ->
   step W CallClose =
     Some (mkWorld (bw W) Idle (workers W)
             (trace W ++ [EvCallClose; EvRetClose None]) false)).
Proof.
  intros Hrun.
  pose proof (Inv_run _ _ _ _ _ _ (Inv_init nm ct inf) Hrun) as HI.
  assert (Shape (trace W)) as HS by (apply Shape_reachable; by exists nm, ct, inf, acts).
  split.
  - intros i Hi Hc.
    destruct (shape_close _ HS i _ Hi) as (e' & He' & ->); [done|done].
  - intros Hc Hm Hcr. pose proof (inv_done _ _ _ _ HI) as Hd. rewrite Hc in Hd.
    destruct W as [b m ws t cr]. simpl in *. subst.
    unfold step, main_step, Close, ret_close, goto, record. simpl.
    by rewrite <- Hd, <- (assoc_L (++)).
Qed.





End Proofs.

(** ** The claims on concrete uploads *)

(** C1: what the writer does at the boundary.  One [Write] of exactly
    100,000,000 bytes, every remote call granted, and then [Close]: the
    total written does not exceed the threshold, yet [Write] has already
    started a large file and sealed a part, and [Close] finishes the large
    file; no whole-object upload is made. *)
Theorem exact_threshold_goes_multipart `{Hash} nm ct inf :
  len (zeros threshold) <= threshold /\
  exists W,
    run (NewWorld nm ct inf) (upload_exact (zeros threshold)) = Some W /\
    history (trace W) =
      [EvCallWrite (zeros threshold); EvRetWrite threshold None;
       EvCallClose; EvRetClose None] /\
    remote_calls (trace W) =
      [(StartLargeFile nm ct inf, OK); (GetUploadPartURL, OK);
       (UploadPart (zeros threshold) (hex (hsum (hwrite hnew (zeros threshold))))
          threshold 1, OK);
       (FinishLargeFile, OK)].
Proof.
  pose proof threshold_pos as HT.
  assert (len (zeros threshold) = threshold) as Hlen by (apply len_zeros; lia).
  split; [lia|]. by apply run_upload_exact.
Qed.

(** C2, as stated, fails: with two workers, the first is refused its upload
    endpoint, and the [Write] that started the pool and the [Close] after it
    both return no error. *)
Lemma endpoint_error_not_surfaced :
  exists W : @World stream_hash,
    run (NewWorld "big.bin" "application/octet-stream" ∅)
      (upload_one_endpoint_refused (zeros threshold) "no endpoint") = Some W /\
    main W = Idle /\
    trace W !! 2%nat = Some (EvRemote GetUploadPartURL (Fail "no endpoint")) /\
    history (trace W) =
      [EvCallWrite (zeros threshold); EvRetWrite threshold None;
       EvCallClose; EvRetClose None].
Proof.
  apply run_upload_one_endpoint_refused, len_zeros.
  pose proof threshold_pos. lia.
Qed.

Lemma len_zeros_threshold : len (zeros threshold) = threshold.
Proof. apply len_zeros. pose proof threshold_pos. lia. Qed.

Lemma len_zeros_large : len (zeros 150000000) = 150000000.
Proof. by apply len_zeros. Qed.

Lemma zeros_large_overflow : threshold <= len (zeros 150000000).
Proof. rewrite len_zeros_large, threshold_eq. lia. Qed.


Lemma session_errors_witness :
  exists W : @World stream_hash,
    run (NewWorld "big.bin" "application/octet-stream" ∅)
      [CallWrite (zeros 150000000); MainRemote (Fail "unavailable")] = Some W /\
    exists e', trace W !! 2%nat = Some e' /\ returns "unavailable" e'.
Proof.
  destruct (run_start_fails (H := stream_hash) "big.bin" "application/octet-stream" ∅
              (zeros 150000000) "unavailable" zeros_large_overflow) as (W & Hrun & Ht).
  exists W. split; [exact Hrun|].
  exact (proj1 (session_errors _ _ _ _ _ Hrun) 1%nat _ _ Ht eq_refl).
Defined.



Lemma close_is_idempotent_witness :
  exists W : @World stream_hash,
    run (NewWorld "small.txt" "text/plain" ∅)
      [CallClose; MainRemote OK; MainRemote (Fail "refused")] = Some W /\
    history (trace W) = [EvCallClose; EvRetClose (Some "refused")] /\
    step W CallClose =
      Some (mkWorld (bw W) Idle (workers W)
              (trace W ++ [EvCallClose; EvRetClose None]) false).
Proof.
  destruct (run_close_refused (H := stream_hash) "small.txt" "text/plain" ∅ "refused")
    as (W & Hrun & Hc & Hm & Hcr & Hh).
  exists W. split; [exact Hrun|]. split; [exact Hh|].
  exact (proj2 (close_is_idempotent _ _ _ _ _ Hrun) Hc Hm Hcr).
Defined.





(** ** The registry *)

(** C10.  [addWriter] leaves a table in place (made on first use) that
    holds the writer under container name, ["/"], object name, and keeps
    every other entry.  [removeWriter] leaves no entry under that key and
    keeps every other entry; on a registry with no entry under the key, and
    on one whose table was never made, it changes nothing.  So removing a
    writer right after adding it leaves no entry under its key. *)
Theorem registry_add_remove (c : Registry.Client) (w : Registry.Writer) :
  Registry.key w = Registry.bucket_name w +:+ "/" +:+ Registry.name w /\
  (exists m, Registry.sWriters (Registry.addWriter c w) = Some m) /\
  Registry.entry (Registry.addWriter c w) (Registry.key w) = Some w /\
  (forall k, k <> Registry.key w ->
     Registry.entry (Registry.addWriter c w) k = Registry.entry c k) /\
  Registry.entry (Registry.removeWriter c w) (Registry.key w) = None /\
  (forall k, k <> Registry.key w ->
     Registry.entry (Registry.removeWriter c w) k = Registry.entry c k) /\
  (Registry.entry c (Registry.key w) = None -> Registry.removeWriter c w = c) /\
  Registry.entry (Registry.removeWriter (Registry.addWriter c w) w) (Registry.key w) = None.
Proof.
  destruct c as [[m|]]; unfold Registry.entry, Registry.addWriter, Registry.removeWriter;
    simpl.
  - repeat split; eauto.
    + apply lookup_insert_eq.
    + intros k Hk. by apply lookup_insert_ne.
    + apply lookup_delete_eq.
    + intros k Hk. by apply lookup_delete_ne.
    + intros Hn. by rewrite delete_id.
    + apply lookup_delete_eq.
  - repeat split; eauto.
    + apply lookup_insert_eq.
    + intros k Hk. by rewrite lookup_insert_ne.
    + apply lookup_delete_eq.
Qed.

(** * Further invariants *)

(** ** The bytes taken *)

Lemma cur_from_app p0 t l : cur_from p0 (t ++ l) = cur_from (cur_from p0 t) l.
Proof. revert p0. induction t as [|e t IH]; intros p0; [done|]. destruct e; simpl; apply IH. Qed.

Lemma cur_app t l : cur (t ++ l) = cur_from (cur t) l.
Proof. apply cur_from_app. Qed.

Lemma results_from_app p0 t l :
  results_from p0 (t ++ l) = results_from p0 t ++ results_from (cur_from p0 t) l.
Proof.
  revert p0. induction t as [|e t IH]; intros p0; [done|].
  destruct e; simpl; rewrite ?IH; done.
Qed.

Lemma write_results_app t l :
  write_results (t ++ l) = write_results t ++ results_from (cur t) l.
Proof. apply results_from_app. Qed.

Lemma taken_app t l :
  taken (t ++ l) = taken t ++ concat (map taken_by (results_from (cur t) l)).
Proof. unfold taken. by rewrite write_results_app, map_app, concat_app. Qed.

Lemma payload_app cs ds : payload (cs ++ ds) = payload cs ++ payload ds.
Proof. unfold payload. by rewrite map_app, concat_app. Qed.

Lemma payload_one c : payload [c] = chunk_buf c.
Proof. unfold payload. simpl. apply app_nil_r. Qed.

Lemma take_len (p : list byte) : take (Z.to_nat (len p)) p = p.
Proof. unfold len. rewrite Nat2Z.id. apply firstn_all. Qed.

Lemma take_rest (p : list byte) acc :
  0 <= acc <= len p ->
  take (Z.to_nat (acc + len (drop (Z.to_nat acc) p))) p = p.
Proof.
  intros Ha. rewrite len_drop by done.
  replace (acc + (len p - acc)) with (len p) by lia. apply take_len.
Qed.

Lemma take_more (p : list byte) acc n :
  0 <= acc -> 0 <= n ->
  take (Z.to_nat (acc + n)) p =
  take (Z.to_nat acc) p ++ take (Z.to_nat n) (drop (Z.to_nat acc) p).
Proof. intros Ha Hn. rewrite Z2Nat.inj_add by done. symmetry. apply take_take_drop. Qed.

Lemma drop_more (p : list byte) acc n :
  0 <= acc -> 0 <= n ->
  drop (Z.to_nat n) (drop (Z.to_nat acc) p) = drop (Z.to_nat (acc + n)) p.
Proof. intros Ha Hn. rewrite Z2Nat.inj_add by done. apply drop_drop. Qed.

Ltac norm_bytes :=
  rewrite ?cur_app, ?write_results_app, ?taken_app, ?payload_app, ?payload_one;
  cbn [cur_from results_from map concat chunk_buf];
  rewrite ?app_nil_r.

Ltac x_prop := try solve [intros; prep; split_or; prep; subst; fin].

Ltac open_frame :=
  cbn [wframe_ok] in *; prep; subst;
  rewrite ?Z.add_0_l, ?Z.sub_0_r in *;
  repeat match goal with
  | Hd : context [len (drop (Z.to_nat ?a) ?p)] |- _ => rewrite (len_drop a p) in Hd by lia
  end;
  rewrite ?len_drop by lia.

Ltac t_first :=
  try solve
    [ intros; open_frame;
      repeat match goal with
      | E : submitted _ = [] |- _ => rewrite E in *; clear E
      end; cbn [total_size foldr length] in *; prep; subst; lia ].

Ltac t_results :=
  try solve
    [ open_frame;
      first [ apply Forall_app; split; [assumption|]; repeat constructor | idtac ];
      unfold contract_ok; cbn [wr_arg wr_n wr_err];
      repeat split; intros; try done; try lia;
      rewrite ?drop_more by lia; done ].

Ltac t_kept :=
  try solve
    [ intros _; open_frame;
      change (Z.to_nat 0) with 0%nat in *;
      unfold taken_by in *; cbn [take wr_arg wr_n wr_err] in *;
      rewrite ?app_nil_r in *;
      repeat match goal with
      | B : payload ?s ++ ?c = _ |- context [payload ?s ++ ?c ++ _] =>
          rewrite (app_assoc (payload s) c)
      end;
      repeat match goal with
      | B : payload ?s ++ ?c = _ |- context [payload ?s ++ ?c] => rewrite B
      end;
      rewrite ?take_len;
      repeat match goal with
      | |- context [take (Z.to_nat (?a + (len ?p - ?a))) ?p] =>
          replace (a + (len p - a)) with (len p) by lia; rewrite take_len
      end;
      rewrite ?take_more by lia;
      rewrite <- ?app_assoc, ?take_drop; done ].

Section BytesProofs.
Context `{Hash}.

Lemma Inv_bytes_init nm ct inf : Inv_bytes (NewWorld nm ct inf).
Proof.
  pose proof threshold_pos.
  constructor; cbn; try done; try lia.
Qed.

Lemma Inv_bytes_step nm0 ct0 inf0 W a W' :
  Inv nm0 ct0 inf0 W -> Inv_bytes W -> step W a = Some W' -> Inv_bytes W'.
Proof.
  intros [Hname Hlock Hcidx Hids Hdig Hupf Hheld Hparts Honce Hnil Hstart
          Hatstart Hdone Hclosed Hclosing Hfinish Hsimple Hbuf Hcons Hsizes
          Hflushed Hdirty Hincall Hpool Hempty]
         [Bframe Bkept Bres Bbound Bfirst] Hs.
  destruct W as [[cu tr rd wgc on dn fl nm ct inf cb ci ch] m ws t cr].
  unfold_model.
  repeat case_match; simplify_eq.
  all: to_prop.
  all: cbn [closing in_write at_rest is_idle pending negb wframe_ok] in *.
  all: rewrite ?len_nil in *.
  all: pose proof threshold_pos as Hthr; pose proof (len_nonneg cb) as Hcb.
  all: repeat match goal with p : list byte |- _ =>
             lazymatch goal with
             | _ : 0 <= len p |- _ => fail
             | _ => pose proof (len_nonneg p)
             end end.
  all: constructor; unfold_model; norm; repeat norm_bytes.
  all: try done.
  all: try lia.
  all: try (rewrite ?len_take by lia; lia).
  all: try (by intros; apply Bkept).
  all: t_first.
  all: t_results.
  all: t_kept.
Qed.

Lemma Inv_bytes_run nm0 ct0 inf0 acts : forall W W',
  Inv nm0 ct0 inf0 W -> Inv_bytes W -> run W acts = Some W' -> Inv_bytes W'.
Proof.
  induction acts as [|a acts IH]; intros W W' HI HB Hr; simpl in Hr.
  - by simplify_eq.
  - destruct (step W a) as [W1|] eqn:Hs; [|done].
    eauto using Inv_step, Inv_bytes_step.
Qed.

End BytesProofs.

(** ** The pool *)

Lemma tally_app f ws vs : tally f (ws ++ vs) = (tally f ws + tally f vs)%nat.
Proof. induction ws as [|w ws IH]; simpl; [done|]. rewrite IH. lia. Qed.

Lemma tally_replicate f n w : f w = 0%nat -> tally f (replicate n w) = 0%nat.
Proof. intros Hw. induction n as [|n IH]; simpl; [done|]. rewrite IH. lia. Qed.

Lemma tally_insert f ws i w0 w :
  ws !! i = Some w0 ->
  (tally f (<[i:=w]> ws) + f w0 = tally f ws + f w)%nat.
Proof.
  revert i. induction ws as [|v ws IH]; intros [|i] Hi; simplify_eq/=; [lia|].
  specialize (IH _ Hi). lia.
Qed.

Lemma tally_lookup f ws i w : ws !! i = Some w -> (f w <= tally f ws)%nat.
Proof.
  revert i. induction ws as [|v ws IH]; intros [|i] Hi; simplify_eq/=; [lia|].
  specialize (IH _ Hi). lia.
Qed.

Lemma n_live_idle ws :
  n_live ws = 0%nat -> Forall (fun w => is_holding w = false) ws.
Proof.
  unfold n_live. induction ws as [|w ws IH]; simpl; intros Hn; [done|].
  constructor; [by destruct w|]. apply IH. lia.
Qed.

Lemma idle_not_holding id ws :
  Forall (fun w => is_holding w = false) ws -> n_holding id ws = 0%nat.
Proof.
  unfold n_holding. induction 1 as [|w ws Hw _ IH]; simpl; [done|].
  rewrite IH. by destruct w.
Qed.

Ltac to_prop_le :=
  repeat match goal with
  | H : (_ <=? _) = true |- _ => apply Z.leb_le in H
  | H : (_ <=? _) = false |- _ => apply Z.leb_gt in H
  end; to_prop.

Ltac split_test a b :=
  let E := fresh "E" in
  destruct (Z.leb a b) eqn:E; [apply Z.leb_le in E | apply Z.leb_gt in E].

Ltac split_eq a b :=
  let E := fresh "E" in
  destruct (Z.eqb a b) eqn:E; [apply Z.eqb_eq in E | apply Z.eqb_neq in E].

Ltac split_tests :=
  repeat match goal with
  | |- context [Z.leb ?a ?b] => split_test a b
  | |- context [Z.eqb ?a ?b] => split_eq a b
  | H : context [Z.leb ?a ?b] |- _ => split_test a b
  | H : context [Z.eqb ?a ?b] |- _ => split_eq a b
  end; cbn [andb] in *.

Ltac refl_prems :=
  repeat match goal with
  | H : ?x = ?x -> _ |- _ => specialize (H eq_refl)
  | H : forall k, AtStart ?k0 = AtStart k -> _ |- _ => specialize (H k0 eq_refl)
  end.

Ltac pose_tallies :=
  unfold n_live, n_holding in *;
  try match goal with
  | Hi : ?l !! ?i = Some (WResend ?c), Hj : ?l !! ?j = Some WRecv
    |- context [tally ?f (<[?j:=?w]> (<[?i:=WRecv]> ?l))] =>
      let Hij := fresh "Hij" in
      let Hn1 := fresh "Hn" in
      let Hn2 := fresh "Hn" in
      assert (i <> j) as Hij by congruence;
      pose proof (tally_insert f l i _ WRecv Hi) as Hn1;
      pose proof (tally_insert f (<[i:=WRecv]> l) j WRecv w) as Hn2;
      rewrite list_lookup_insert_ne in Hn2 by done;
      specialize (Hn2 Hj);
      cbn [holding is_live chunk_id bump] in Hn1, Hn2;
      revert Hn1 Hn2;
      generalize (tally f (<[j:=w]> (<[i:=WRecv]> l)));
      generalize (tally f (<[i:=WRecv]> l)); intros ? ? Hn1 Hn2
  end;
  repeat match goal with
  | Hl : ?l !! ?i = Some ?w0 |- context [tally ?f (<[?i:=?w]> ?l)] =>
      let Hn := fresh "Hn" in
      pose proof (tally_insert f l i w0 w Hl) as Hn;
      cbn [holding is_live chunk_id bump] in Hn;
      revert Hn; generalize (tally f (<[i:=w]> l)); intros ? Hn
  end;
  rewrite ?tally_app, ?tally_replicate by reflexivity.

Ltac pose_lookups :=
  repeat match goal with
  | Hl : ?l !! ?i = Some ?w |- _ =>
      pose proof (tally_lookup (fun v => if is_live v then 1%nat else 0%nat) l i w Hl);
      revert Hl
  end; intros; cbn [is_live] in *.

Ltac t_wg :=
  try solve [ intros; subst; pose_tallies; lia ].

Ltac t_once :=
  try solve
    [ let id := fresh "id" in
      intros id;
      match goal with
      | P : forall x : Z, (_ + _)%nat = _ |- _ => specialize (P id)
      end;
      norm; cbn [is_ok_part] in *;
      pose_tallies; split_tests; simpl in *; lia ].

Ltac idle_goal :=
  match goal with
  | P : Forall _ ?l /\ _ |- _ => destruct P
  end; refl_prems;
  repeat match goal with
  | H : _ /\ _ |- _ => destruct H
  end;
  first
    [ discriminate
    | congruence
    | match goal with
      | F : Forall _ ?l, Hl : ?l !! _ = Some _ |- _ =>
          let Hx := fresh "Hx" in
          pose proof (Forall_lookup_1 _ _ _ _ F Hl) as Hx; cbn in Hx; discriminate
      end
    | split; [|congruence];
      repeat first [ apply Forall_insert | assumption | done ] ].

Ltac t_finish :=
  try solve
    [ let Hf := fresh "Hf" in
      intros Hf;
      match goal with
      | P : _ = AtFinish \/ _ -> _ /\ _ |- _ =>
          first
            [ specialize (P Hf)
            | destruct Hf as [Hf|Hf];
              [ first [ discriminate | specialize (P (or_introl eq_refl)) ]
              | first [ specialize (P (or_intror Hf))
                      | specialize (P (or_introl eq_refl)) ] ] ]
      end; idle_goal
    | intros _; refl_prems; subst; split; [|done]; apply n_live_idle; lia ].

Ltac t_crash :=
  try solve
    [ cbv [buf_ok cbuf once ready] in *; intros; refl_prems;
      repeat match goal with
      | H : _ /\ _ |- _ => destruct H
      end; split_or;
      repeat match goal with
      | H : _ /\ _ |- _ => destruct H
      end; subst;
      repeat match goal with
      | E : submitted _ = [] |- _ => rewrite E in *; clear E
      end; cbn [length] in *;
      split; intros; try done; try lia; try congruence ].

Ltac t_endpoint :=
  try solve
    [ let Hc := fresh "Hc" in
      intros Hc; norm; cbn [is_part_url_ok length] in Hc; try lia;
      match goal with
      | P : _ = 0%nat -> _ /\ _ |- _ => specialize (P Hc); destruct P as (? & ? & ?)
      end;
      pose_lookups; pose_tallies;
      first
        [ lia
        | split; [lia|split; [done|congruence]]
        | match goal with
          | E : submitted _ = [] |- _ => rewrite E in *; cbn [length] in *; lia
          end ] ].

Section PoolProofs.
Context `{Hash}.

Lemma Inv_pool_init nm ct inf : Inv_pool (NewWorld nm ct inf).
Proof.
  constructor; cbn; try done.
  - intros id. split_tests; lia.
  - intros [|]; done.
Qed.

Lemma Inv_pool_step nm0 ct0 inf0 W a W' :
  Inv nm0 ct0 inf0 W -> Inv_pool W -> step W a = Some W' -> Inv_pool W'.
Proof.
  intros [Hname Hlock Hcidx Hids Hdig Hupf Hheld Hparts Honce Hnil Hstart
          Hatstart Hdone Hclosed Hclosing Hfinish Hsimple Hbuf Hcons Hsizes
          Hflushed Hdirty Hincall Hpool Hempty]
         [Pwg Ponce Pwait Pfinish Pcrash Pend] Hs.
  destruct W as [[cu tr rd wgc on dn fl nm ct inf cb ci ch] m ws t cr].
  unfold_model.
  repeat case_match; simplify_eq.
  all: to_prop.
  all: cbn [closing in_write at_rest is_idle pending negb] in *.
  all: rewrite ?len_nil in *.
  all: pose proof threshold_pos as Hthr; pose proof (len_nonneg cb) as Hcb.
  all: constructor; unfold_model; norm;
    [ t_wg | t_once | x_prop | t_finish | x_prop; t_crash | t_endpoint ].
  all: try done.
Qed.

Lemma Inv_pool_run nm0 ct0 inf0 acts : forall W W',
  Inv nm0 ct0 inf0 W -> Inv_pool W -> run W acts = Some W' -> Inv_pool W'.
Proof.
  induction acts as [|a acts IH]; intros W W' HI HB Hr; simpl in Hr.
  - by simplify_eq.
  - destruct (step W a) as [W1|] eqn:Hs; [|done].
    eauto using Inv_step, Inv_pool_step.
Qed.

End PoolProofs.

(** ** The two paths *)

Lemma close_rets_app t l : close_rets (t ++ l) = close_rets t ++ close_rets l.
Proof. apply omap_app. Qed.

Lemma has_error_app t l : has_error (t ++ l) = has_error t || has_error l.
Proof. apply existsb_app. Qed.

Lemma before_close_app t l :
  before_close (t ++ l) =
  if has_close t then before_close t else t ++ before_close l.
Proof.
  induction t as [|e t IH]; [done|].
  destruct e; simpl; rewrite ?IH; try done;
    unfold has_close; by destruct (existsb is_call_close t).
Qed.

Lemma no_upload_exact `{Hash} nm ct inf d t :
  count is_simple t = 0%nat -> Forall (upfile_exact nm ct inf d) t.
Proof.
  induction t as [|e t IH]; intros Hc; [done|].
  change (e :: t) with ([e] ++ t) in Hc. rewrite count_app in Hc.
  constructor; [|apply IH; lia].
  destruct e as [| | | |c r| | |]; try done. destruct c; try done.
Qed.

Lemma no_simple_no_upload t :
  count is_simple t = 0%nat -> count is_upload_file t = 0%nat.
Proof.
  induction t as [|e t IH]; intros Hc; [done|].
  change (e :: t) with ([e] ++ t) in *. rewrite count_app in *.
  rewrite IH by lia.
  destruct e as [| | | |c r| | |]; try done. destruct c; try done.
Qed.

Lemma head_snoc {A} (l : list A) x y : head l = Some x -> head (l ++ [y]) = Some x.
Proof. by destruct l. Qed.

Ltac norm_paths :=
  rewrite ?close_rets_app, ?has_error_app, ?before_close_app, ?remote_calls_app;
  cbn [close_rets remote_calls omap list_omap before_close has_error existsb
       is_error_ret is_simple is_upload_file large_closing orb app];
  rewrite ?app_nil_r, ?orb_false_r, ?orb_true_r.

Ltac forget_flags :=
  repeat match goal with
  | H : context [has_close ?t] |- _ =>
      let b := fresh "b" in set (b := has_close t) in *; clearbody b; destruct b
  | |- context [has_close ?t] =>
      let b := fresh "b" in set (b := has_close t) in *; clearbody b; destruct b
  | H : context [clean ?t] |- _ =>
      let b := fresh "b" in set (b := clean t) in *; clearbody b; destruct b
  | |- context [clean ?t] =>
      let b := fresh "b" in set (b := clean t) in *; clearbody b; destruct b
  end.

Ltac use_eqs :=
  repeat match goal with
  | E : count _ _ = 0%nat |- _ => rewrite E in *; clear E
  | E : close_rets _ = [] |- _ => rewrite E in *; clear E
  | E : submitted _ = [] |- _ => rewrite E in *; clear E
  | E : remote_calls _ = _ |- _ => rewrite E in *; clear E
  end.

Ltac x_flags :=
  try solve
    [ intros;
      first
        [ done
        | forget_flags; cbn [negb andb orb] in *; refl_prems; prep; refl_prems;
          split_or; prep; subst; try discriminate; use_eqs;
          cbn [length app] in *; fin ] ].

Lemma length_zero_nil {A} (l : list A) : Z.of_nat (length l) = 0 -> l = [].
Proof. destruct l; [done|]. simpl. lia. Qed.

Ltac t_wedge :=
  try solve
    [ let Hk := fresh "Hk" in
      intros ? ? Hk;
      first
        [ by (exfalso; eapply Hk)
        | match goal with
          | C : _ -> _ -> (forall k, _ <> AtStart k) -> has_error _ = true |- _ =>
              rewrite C; [done|done|done|intros k; first [discriminate | apply Hk]]
          end ] ].

Ltac t_one :=
  try solve
    [ match goal with
      | C : _ \/ AtUploadFile = AtUploadFile -> _ |- _ =>
          destruct (C (or_intror eq_refl)) as [_ ->]; simpl; lia
      end ].

Ltac t_exact :=
  try solve
    [ let Hc := fresh "Hc" in
      intros Hc;
      match goal with
      | |- context [has_close ?t] =>
          let b := fresh "b" in
          set (b := has_close t) in *; clearbody b; destruct b; try discriminate
      end; rewrite ?app_nil_r;
      refl_prems;
      apply Forall_app; split;
      [ first [ assumption
              | apply no_upload_exact;
                match goal with C : _ /\ close_rets _ = [] |- _ => apply C end ]
      | repeat constructor; cbn [upfile_exact]; try done;
        match goal with
        | C : _ \/ AtUploadFile = AtUploadFile -> _ |- _ =>
            destruct (C (or_intror eq_refl)) as [-> _]
        end;
        match goal with
        | N : _ = _ /\ _ = _ /\ _ = _ |- _ => destruct N as (-> & -> & ->)
        end; reflexivity ] ].

Ltac t_upfile :=
  try solve
    [ let Hm := fresh "Hm" in
      intros Hm;
      try match goal with
      | C : _ \/ _ -> _ /\ count is_upload_file _ = 0%nat |- _ =>
          first [ specialize (C Hm) | specialize (C (or_introl eq_refl)) ];
          destruct C
      end;
      destruct Hm as [Hm|Hm]; try discriminate; subst;
      cbn [closing] in *; refl_prems;
      repeat match goal with
      | H : _ /\ _ |- _ => destruct H
      end;
      match goal with
      | |- context [has_close ?t] =>
          let b := fresh "b" in
          set (b := has_close t) in *; clearbody b; destruct b; try discriminate
      end; rewrite ?app_nil_r;
      first
        [ split; [done|lia]
        | match goal with
          | E : Z.of_nat (length (submitted ?t)) = 0, B : _ -> payload _ ++ _ = _ |- _ =>
              apply length_zero_nil in E; rewrite E in B;
              specialize (B ltac:(discriminate));
              change (Z.to_nat 0) with 0%nat in B; cbn [take payload map concat app] in B;
              rewrite app_nil_r in B
          end;
          split; [done|]; apply no_simple_no_upload; done ] ].

Ltac t_simple :=
  try solve
    [ let Hon := fresh "Hon" in
      intros Hon;
      match goal with
      | C : _ = false -> simple_state _ _ _ _ |- _ => specialize (C Hon)
      end;
      try match goal with
      | P : AtFinish = AtFinish \/ _ -> _ |- _ =>
          destruct (P (or_introl eq_refl)); subst; refl_prems; discriminate
      end;
      try match goal with
      | C : _ \/ AtUploadFile = AtUploadFile -> _ |- _ =>
          destruct (C (or_intror eq_refl)) as [? _]
      end;
      cbv [simple_state simple_done main bw done trace] in *;
      cbn [closing] in *; refl_prems;
      repeat match goal with
      | H : _ /\ _ |- _ => destruct H
      end;
      norm_paths;
      repeat match goal with
      | |- context [has_close ?t] =>
          let b := fresh "b" in
          set (b := has_close t) in *; clearbody b; destruct b; try discriminate
      | H : context [has_close ?t] |- _ =>
          let b := fresh "b" in
          set (b := has_close t) in *; clearbody b; destruct b; try discriminate
      end;
      repeat match goal with
      | H : _ \/ _ |- _ => destruct H
      | H : exists _, _ |- _ => destruct H
      | H : _ /\ _ |- _ => destruct H
      end;
      use_eqs; subst; cbn [app];
      first
        [ done
        | left; eexists; split; [reflexivity|]; first [done | by apply head_snoc]
        | right; eexists; split; [reflexivity|]; first [done | by apply head_snoc] ] ].

Section PathsProofs.
Context `{Hash}.

Lemma Inv_paths_init nm ct inf : Inv_paths nm ct inf (NewWorld nm ct inf).
Proof.
  constructor; cbn; try done; try lia.
Qed.

Lemma Inv_paths_step nm0 ct0 inf0 W a W' :
  Inv nm0 ct0 inf0 W -> Inv_bytes W -> Inv_pool W -> Inv_paths nm0 ct0 inf0 W ->
  step W a = Some W' -> Inv_paths nm0 ct0 inf0 W'.
Proof.
  intros [Hname Hlock Hcidx Hids Hdig Hupf Hheld Hparts Honce Hnil Hstart
          Hatstart Hdone Hclosed Hclosing Hfinish Hsimple Hbuf Hcons Hsizes
          Hflushed Hdirty Hincall Hpool Hempty]
         [Bframe Bkept Bres Bbound Bfirst]
         [Pwg Ponce Pwait Pfinish Pcrash Pend]
         [Cpre Cclosing Cupfile Cexact Cone Csimple Clarge Cclean Cfinish Cwedge] Hs.
  destruct W as [[cu tr rd wgc on dn fl nm ct inf cb ci ch] m ws t cr].
  unfold_model.
  repeat case_match; simplify_eq.
  all: to_prop.
  all: cbn [closing in_write at_rest is_idle pending negb large_closing] in *.
  all: rewrite ?len_nil in *.
  all: pose proof threshold_pos as Hthr; pose proof (len_nonneg cb) as Hcb.
  all: clear Hids Hdig Hupf Hheld Hparts Hstart Hfinish Hsizes Hflushed Hincall
             Hpool Hempty Bframe Bres Bbound Bfirst Hcons Ponce Pwait Pcrash Pend.
  all: constructor; unfold_model; rewrite <- ?(assoc_L (++)); cbn [app];
       norm; norm_paths;
    [ x_flags | x_flags | x_flags; t_upfile | x_flags; t_exact | x_flags; t_one
    | x_flags; t_simple | x_flags | x_flags | x_flags | x_flags; t_wedge ].
Qed.

Lemma Order_none t : count is_finish t = 0%nat -> finish_after_parts t.
Proof.
  intros Hc i r Hi. exfalso.
  apply take_drop_middle in Hi. rewrite <- Hi, count_app in Hc.
  change (?e :: ?l) with ([e] ++ l) in Hc. rewrite count_app in Hc.
  cbn in Hc. lia.
Qed.

Lemma Order_quiet t l :
  finish_after_parts t -> submitted l = [] -> count is_finish l = 0%nat ->
  finish_after_parts (t ++ l).
Proof.
  intros Ht Hl Hf i r Hi c Hc.
  rewrite submitted_app, Hl, app_nil_r in Hc.
  destruct (decide (i < length t)%nat) as [Hlt|Hge].
  - rewrite lookup_app_l in Hi by done.
    destruct (Ht i r Hi c Hc) as (j & Hj & Hok).
    exists j. split; [done|]. by apply lookup_app_l_Some.
  - rewrite lookup_app_r in Hi by lia. exfalso.
    apply take_drop_middle in Hi. rewrite <- Hi, count_app in Hf.
    change (?e :: ?k) with ([e] ++ k) in Hf. rewrite count_app in Hf.
    cbn in Hf. lia.
Qed.

Lemma Order_finish t l :
  count is_finish t = 0%nat ->
  (forall c, c ∈ submitted t -> exists j, t !! j = Some (ok_upload c)) ->
  submitted l = [] ->
  finish_after_parts (t ++ l).
Proof.
  intros Hf Hall Hl i r Hi c Hc.
  rewrite submitted_app, Hl, app_nil_r in Hc.
  destruct (decide (i < length t)%nat) as [Hlt|Hge].
  - rewrite lookup_app_l in Hi by done. exfalso.
    apply take_drop_middle in Hi. rewrite <- Hi, count_app in Hf.
    change (?e :: ?k) with ([e] ++ k) in Hf. rewrite count_app in Hf.
    cbn in Hf. lia.
  - destruct (Hall c Hc) as (j & Hj). exists j.
    pose proof (lookup_lt_Some _ _ _ Hj).
    split; [lia|]. by apply lookup_app_l_Some.
Qed.

End PathsProofs.

(** ** Parts and their uploads *)

Lemma ids_range (subs : list chunk) c :
  map chunk_id subs = map Z.of_nat (seq 1 (length subs)) ->
  c ∈ subs -> 1 <= chunk_id c <= Z.of_nat (length subs).
Proof.
  intros Hids Hc.
  assert (chunk_id c ∈ map chunk_id subs) as Hin by (by apply list_elem_of_fmap_2).
  rewrite Hids in Hin. apply list_elem_of_fmap in Hin as (k & -> & Hk).
  apply elem_of_seq in Hk. lia.
Qed.

Lemma ids_inj (subs : list chunk) c0 c :
  map chunk_id subs = map Z.of_nat (seq 1 (length subs)) ->
  c0 ∈ subs -> c ∈ subs -> chunk_id c0 = chunk_id c -> c0 = c.
Proof.
  intros Hids H0 Hc Heq.
  assert (NoDup (map chunk_id subs)) as Hnd.
  { rewrite Hids. apply NoDup_fmap_2; [intros x y; lia|apply NoDup_seq]. }
  apply list_elem_of_lookup in H0 as (i & Hi).
  apply list_elem_of_lookup in Hc as (j & Hj).
  assert (i = j) as ->; [|congruence].
  eapply NoDup_lookup; [exact Hnd| |].
  - rewrite list_lookup_fmap, Hi. reflexivity.
  - rewrite list_lookup_fmap, Hj. simpl. by rewrite Heq.
Qed.

Lemma count_pos f (t : list event) :
  (0 < count f t)%nat -> exists j e, t !! j = Some e /\ f e = true.
Proof.
  induction t as [|e t IH]; intros Hc; [cbn in Hc; lia|].
  destruct (f e) eqn:Hf.
  - exists 0%nat, e. done.
  - change (e :: t) with ([e] ++ t) in Hc. rewrite count_app in Hc.
    assert (count f [e] = 0%nat) as He by (cbn; by rewrite Hf).
    destruct IH as (j & e' & Hj & He'); [lia|].
    exists (S j), e'. done.
Qed.

Lemma count_none f (t : list event) i e :
  count f t = 0%nat -> t !! i = Some e -> f e = false.
Proof.
  intros Hc Hi. apply take_drop_middle in Hi. rewrite <- Hi, count_app in Hc.
  change (e :: ?k) with ([e] ++ k) in Hc. rewrite count_app in Hc.
  destruct (f e) eqn:Hf; [|done]. cbn in Hc. rewrite Hf in Hc. cbn in Hc. lia.
Qed.

Section OrderProofs.
Context `{Hash}.

Lemma uploaded_once nm ct inf W c :
  Inv nm ct inf W -> Inv_pool W -> c ∈ submitted (trace W) ->
  n_holding (chunk_id c) (workers W) = 0%nat ->
  count (is_ok_part (chunk_id c)) (trace W) = 1%nat /\
  exists j, trace W !! j = Some (ok_upload c).
Proof.
  intros HI HP Hc Hh.
  pose proof (ids_range _ _ (inv_ids _ _ _ _ HI) Hc) as Hr.
  pose proof (pool_once _ HP (chunk_id c)) as Ho.
  rewrite Hh, (inv_cidx _ _ _ _ HI) in Ho.
  rewrite (proj2 (Z.leb_le _ _)), (proj2 (Z.leb_le _ _)) in Ho by lia.
  simpl in Ho. split; [done|].
  destruct (count_pos (is_ok_part (chunk_id c)) (trace W)) as (j & e & Hj & He); [lia|].
  exists j. rewrite Hj. f_equal.
  pose proof (Forall_lookup_1 _ _ _ _ (inv_parts _ _ _ _ HI) Hj) as Hp.
  destruct e as [| | | |cl r| | |]; try done.
  destruct cl; try done. destruct r; try done.
  simpl in He, Hp. apply Z.eqb_eq in He.
  destruct Hp as (c0 & Hin & -> & -> & -> & ->).
  by rewrite (ids_inj _ c0 c (inv_ids _ _ _ _ HI) Hin Hc He).
Qed.

Lemma uploaded_all nm ct inf W :
  Inv nm ct inf W -> Inv_pool W ->
  Forall (fun w => is_holding w = false) (workers W) ->
  forall c, c ∈ submitted (trace W) -> exists j, trace W !! j = Some (ok_upload c).
Proof.
  intros HI HP Hidle c Hc.
  eapply uploaded_once; eauto using idle_not_holding.
Qed.

Lemma Order_step nm0 ct0 inf0 W a W' :
  Inv nm0 ct0 inf0 W -> Inv_pool W -> finish_after_parts (trace W) ->
  step W a = Some W' -> finish_after_parts (trace W').
Proof.
  intros HI HP HO Hs.
  pose proof (uploaded_all _ _ _ _ HI HP) as Hall.
  pose proof (inv_closing _ _ _ _ HI) as Hclosing.
  pose proof (pool_finish _ HP) as Pfinish.
  clear HI HP.
  destruct W as [[cu tr rd wgc on dn fl nm ct inf cb ci ch] m ws t cr].
  unfold_model.
  repeat case_match; simplify_eq.
  all: rewrite <- ?(assoc_L (++)); cbn [app].
  all: try assumption.
  all: try (apply Order_quiet; [assumption|reflexivity|reflexivity]).
  all: try (apply Order_finish; [apply Hclosing; reflexivity| |reflexivity];
            apply Hall, Pfinish; by left).
  all: apply Order_none; rewrite count_app;
       destruct (decide (count is_finish t = 0%nat)) as [->|Hn]; [done|];
       destruct (Pfinish (or_intror Hn)); discriminate.
Qed.

(** ** Everything at once *)

Lemma Good_init nm ct inf : Good nm ct inf (NewWorld nm ct inf).
Proof.
  constructor;
    auto using Inv_init, Inv_bytes_init, Inv_pool_init, Inv_paths_init.
  intros i r Hi. done.
Qed.

Lemma Good_step nm ct inf W a W' :
  Good nm ct inf W -> step W a = Some W' -> Good nm ct inf W'.
Proof.
  intros [HI HB HP HC HO] Hs.
  constructor;
    eauto using Inv_step, Inv_bytes_step, Inv_pool_step, Inv_paths_step, Order_step.
Qed.

Lemma Good_run nm ct inf acts : forall W W',
  Good nm ct inf W -> run W acts = Some W' -> Good nm ct inf W'.
Proof.
  induction acts as [|a acts IH]; intros W W' HG Hr; simpl in Hr.
  - by simplify_eq.
  - destruct (step W a) as [W1|] eqn:Hs; [|done].
    eauto using Good_step.
Qed.

Lemma run_good nm ct inf acts W :
  run (NewWorld nm ct inf) acts = Some W -> Good nm ct inf W.
Proof. apply Good_run, Good_init. Qed.

End OrderProofs.

(** ** What the caller sees *)

Lemma results_from_history p0 t : results_from p0 (history t) = results_from p0 t.
Proof.
  revert p0. induction t as [|e t IH]; intros p0; [done|].
  destruct e; simpl; rewrite ?IH; done.
Qed.

Lemma taken_history t : taken (history t) = taken t.
Proof. unfold taken, write_results. by rewrite results_from_history. Qed.

Lemma close_rets_history t : close_rets (history t) = close_rets t.
Proof. induction t as [|e t IH]; [done|]. destruct e; simpl; by rewrite ?IH. Qed.

Lemma has_error_history t : has_error (history t) = has_error t.
Proof.
  induction t as [|e t IH]; [done|].
  destruct e; simpl; rewrite ?IH; done.
Qed.

Lemma before_close_history t : before_close (history t) = history (before_close t).
Proof. induction t as [|e t IH]; [done|]. destruct e; simpl; by rewrite ?IH. Qed.

Lemma results_writes_ok p0 ps :
  results_from p0 (writes_ok ps) = map (fun p => WriteResult p (len p) None) ps.
Proof.
  revert p0. induction ps as [|p ps IH]; intros p0; [done|].
  simpl. by rewrite IH.
Qed.

Lemma taken_writes_ok ps : taken (writes_ok ps) = concat ps.
Proof.
  unfold taken, write_results. rewrite results_writes_ok.
  induction ps as [|p ps IH]; [done|].
  simpl. unfold taken_by at 1. simpl. by rewrite take_len, IH.
Qed.

Lemma has_error_writes_ok ps : has_error (writes_ok ps) = false.
Proof. induction ps as [|p ps IH]; simpl; done. Qed.

Lemma close_rets_writes_ok ps : close_rets (writes_ok ps) = [].
Proof. induction ps as [|p ps IH]; simpl; done. Qed.

Lemma total_len_concat ps : total_len ps = len (concat ps).
Proof.
  induction ps as [|p ps IH]; [done|].
  unfold total_len in *. simpl. rewrite len_app. lia.
Qed.


(** A finished session as the caller sees it: every [Write] took all of its
    argument, and [Close] returned [e]. *)
Lemma finished_session `{Hash} nm ct inf W ps e :
  Good nm ct inf W ->
  history (trace W) = writes_ok ps ++ [EvCallClose; EvRetClose e] ->
  main W = Idle /\ done (bw W) = true /\ clean (trace W) = true /\
  accepted (trace W) = total_len ps /\
  taken (trace W) = concat ps /\
  taken (before_close (trace W)) = concat ps /\
  close_rets (trace W) = [e] /\
  has_error (trace W) = match e with Some _ => true | None => false end.
Proof.
  intros [HI HB HP HC HO] Hh.
  assert (main W = Idle) as Hm.
  { pose proof (inv_in_call _ _ _ _ HI) as Hin.
    rewrite in_call_history, Hh in Hin.
    replace (writes_ok ps ++ [EvCallClose; EvRetClose e])
      with ((writes_ok ps ++ [EvCallClose]) ++ [EvRetClose e]) in Hin
      by (by rewrite <- app_assoc).
    rewrite last_snoc in Hin. by destruct (main W). }
  split; [done|]. split.
  { rewrite <- (inv_done _ _ _ _ HI), <- has_close_history, Hh, has_close_app.
    simpl. apply orb_true_r. }
  split.
  { rewrite <- clean_history, Hh, clean_app, clean_writes_ok, has_close_writes_ok. done. }
  split.
  { rewrite <- accepted_history, Hh, accepted_app, accepted_writes_ok. simpl. lia. }
  split.
  { rewrite <- taken_history, Hh, taken_app. simpl.
    by rewrite app_nil_r, taken_writes_ok. }
  split.
  { rewrite <- taken_history, <- before_close_history, Hh, before_close_app,
      has_close_writes_ok. simpl. by rewrite app_nil_r, taken_writes_ok. }
  split.
  { rewrite <- close_rets_history, Hh, close_rets_app, close_rets_writes_ok. done. }
  rewrite <- has_error_history, Hh, has_error_app, has_error_writes_ok.
  by destruct e.
Qed.

(** * More of the writer *)

Section WriterTheorems.
Context `{Hash}.



(** X2.  The contract of [io.Writer]: every [Write] that returns answers a
    count between 0 and [len(p)], and a count below [len(p)] only together
    with an error. *)
Theorem write_contract nm ct inf acts W :
  run (NewWorld nm ct inf) acts = Some W ->
  Forall contract_ok (write_results (trace W)).
Proof. intros Hrun. apply (bytes_results _ (good_bytes _ _ _ _ (run_good _ _ _ _ _ Hrun))). Qed.

(** X3.  [simpleWriteFile] uploads at most one whole object per writer.
    The object has the name, the content type and the info the writer was
    created with, and its payload is what the [Write] calls took before the
    first [Close], with the length and the hexadecimal SHA-1 of exactly
    those bytes: what is written after [Close] is never part of it. *)
Theorem whole_object_upload nm ct inf acts W :
  run (NewWorld nm ct inf) acts = Some W ->
  (count is_upload_file (trace W) <= 1)%nat /\
  forall i data size n c sha info r,
    trace W !! i = Some (EvRemote (UploadFile data size n c sha info) r) ->
    UploadFile data size n c sha info =
      whole_object nm ct inf (taken (before_close (trace W))).
Proof.
  intros Hrun.
  destruct (run_good _ _ _ _ _ Hrun) as [HI _ _ HC _].
  split; [apply (paths_one _ _ _ _ HC)|].
  intros i data size n c sha info r Hi.
  destruct (has_close (trace W)) eqn:Hcl.
  - apply (Forall_lookup_1 _ _ _ _ (paths_exact _ _ _ _ HC Hcl) Hi).
  - rewrite (inv_done _ _ _ _ HI) in Hcl.
    destruct (paths_pre _ _ _ _ HC Hcl) as [Hn _].
    by pose proof (count_none _ _ _ _ Hn Hi).
Qed.

(** X4.  A session of fewer than 100,000,000 bytes.  When every [Write] took
    all of its argument, the total is below the threshold and [Close] has
    returned, the writer has started no worker and made no part, and its
    remote calls are those of [simpleWriteFile] alone: the request for an
    upload endpoint and, if that was granted, one upload of the whole
    object, which is the concatenation of what was written.  [Close] has
    returned the error of the call that failed, or nil. *)
Theorem small_upload nm ct inf acts W ps e :
  run (NewWorld nm ct inf) acts = Some W ->
  history (trace W) = writes_ok ps ++ [EvCallClose; EvRetClose e] ->
  total_len ps < threshold ->
  workers W = [] /\ submitted (trace W) = [] /\
  ((exists err, e = Some err /\
      remote_calls (trace W) = [(GetUploadURL, Fail err)]) \/
   (exists r, e = err_of r /\
      remote_calls (trace W) =
        [(GetUploadURL, OK); (whole_object nm ct inf (concat ps), r)])).
Proof.
  intros Hrun Hh HL.
  pose proof (run_good _ _ _ _ _ Hrun) as HG.
  destruct (finished_session _ _ _ _ _ _ HG Hh)
    as (Hm & Hd & _ & Hacc & _ & Htk & Hcr & _).
  destruct HG as [HI HB _ HC _].
  assert (once (bw W) = false) as Hon.
  { destruct (once (bw W)) eqn:Ho; [|done].
    pose proof (bytes_first _ HB Ho) as Hf. rewrite Hm, Hacc in Hf. simpl in Hf. lia. }
  destruct (inv_nil _ _ _ _ HI (inv_once _ _ _ _ HI Hon)) as [Hws Hsub].
  split; [done|]. split; [done|].
  pose proof (paths_simple _ _ _ _ HC Hon) as Hs.
  unfold simple_state in Hs. rewrite Hm, Hd in Hs.
  destruct Hs as [(err & Hrc & Hhd)|(r & Hrc & Hhd)]; rewrite Hcr in Hhd; simplify_eq/=.
  - left. by exists err.
  - right. exists r. by rewrite Hrc, Htk.
Qed.


(** X6.  A part is in one place.  At any time a part that was handed to
    the pool is in the hands of exactly one worker (about to upload it or
    to send it back), or it has been uploaded successfully exactly once:
    never both, never twice, and no worker holds and no upload names a part
    that was not handed over. *)
Theorem part_in_one_place nm ct inf acts W id :
  run (NewWorld nm ct inf) acts = Some W ->
  (n_holding id (workers W) + count (is_ok_part id) (trace W))%nat =
  if (1 <=? id) && (id <=? Z.of_nat (length (submitted (trace W))))
  then 1%nat else 0%nat.
Proof.
  intros Hrun.
  destruct (run_good _ _ _ _ _ Hrun) as [HI _ HP _ _].
  rewrite <- (inv_cidx _ _ _ _ HI). apply (pool_once _ HP).
Qed.



(** X9.  The buffer never holds more than 100,000,000 bytes, and between
    calls it holds fewer as long as no call has returned an error. *)
Theorem buffer_bounded nm ct inf acts W :
  run (NewWorld nm ct inf) acts = Some W ->
  len (cbuf (bw W)) <= threshold /\
  (main W = Idle -> has_error (trace W) = false -> len (cbuf (bw W)) < threshold).
Proof.
  intros Hrun.
  destruct (run_good _ _ _ _ _ Hrun) as [HI HB _ HC _].
  split; [apply (bytes_bound _ HB)|].
  intros Hm Herr.
  pose proof (inv_buf _ _ _ _ HI) as Hbuf. rewrite Hm in Hbuf. simpl in Hbuf.
  destruct Hbuf as [Hlt|(Ho & Hr & _)]; [done|].
  rewrite (paths_wedge _ _ _ _ HC Ho Hr) in Herr; [done|].
  intros k. by rewrite Hm.
Qed.

End WriterTheorems.

Section PoolTheorems.
Context `{Hash}.

Lemma pool_size_step nm0 ct0 inf0 W a W' :
  Inv nm0 ct0 inf0 W -> ready (bw W) <> ChNil -> step W a = Some W' ->
  length (workers W') = length (workers W) /\ ready (bw W') <> ChNil.
Proof.
  intros HI Hrd Hs.
  pose proof (inv_at_start _ _ _ _ HI) as Hatstart.
  clear HI.
  destruct W as [[cu tr rd wgc on dn fl nm ct inf cb ci ch] m ws t cr].
  unfold_model.
  repeat case_match; simplify_eq; unfold_model.
  all: rewrite ?length_insert.
  all: try done.
  all: by destruct (Hatstart _ eq_refl) as (_ & _ & ?).
Qed.

Lemma pool_size_run nm0 ct0 inf0 acts : forall W W',
  Inv nm0 ct0 inf0 W -> ready (bw W) <> ChNil -> run W acts = Some W' ->
  length (workers W') = length (workers W).
Proof.
  induction acts as [|a acts IH]; intros W W' HI Hrd Hr; simpl in Hr.
  - by simplify_eq.
  - destruct (step W a) as [W1|] eqn:Hs; [|done].
    destruct (pool_size_step _ _ _ _ _ _ HI Hrd Hs) as [Hl Hrd1].
    rewrite <- Hl. eauto using Inv_step.
Qed.

Lemma started_pool W k W2 :
  main W = AtStart k -> workers W = [] ->
  step W (MainRemote OK) = Some W2 ->
  ConcurrentUploads (bw W2) = Z.max 1 (ConcurrentUploads (bw W)) /\
  workers W2 = replicate (Z.to_nat (Z.max 1 (ConcurrentUploads (bw W)))) WGetURL /\
  ready (bw W2) <> ChNil.
Proof.
  destruct W as [[cu tr rd wgc on dn fl nm1 ct1 inf1 cb ci ch] m ws t cr].
  simpl. intros -> -> Hs. unfold_model.
  destruct cr; [done|]. by simplify_eq.
Qed.

(** X10.  The size of the pool.  When [StartLargeFile] succeeds,
    [sendChunk] raises [ConcurrentUploads] to at least 1 and starts that
    many workers; their number never changes afterwards, whatever the
    caller assigns to [ConcurrentUploads] later. *)
Theorem pool_size_fixed nm ct inf acts1 W1 k W2 acts2 W3 :
  run (NewWorld nm ct inf) acts1 = Some W1 ->
  main W1 = AtStart k ->
  step W1 (MainRemote OK) = Some W2 ->
  run W2 acts2 = Some W3 ->
  ConcurrentUploads (bw W2) = Z.max 1 (ConcurrentUploads (bw W1)) /\
  workers W2 = replicate (Z.to_nat (Z.max 1 (ConcurrentUploads (bw W1)))) WGetURL /\
  length (workers W3) = Z.to_nat (Z.max 1 (ConcurrentUploads (bw W1))).
Proof.
  intros Hrun1 Hm Hs Hrun2.
  destruct (run_good _ _ _ _ _ Hrun1) as [HI _ _ _ _].
  pose proof (Inv_step _ _ _ _ _ _ HI Hs) as HI2.
  destruct (inv_at_start _ _ _ _ HI _ Hm) as (_ & _ & Hrd).
  destruct (inv_nil _ _ _ _ HI Hrd) as [Hws _].
  destruct (started_pool _ _ _ Hm Hws Hs) as (Hcu & Hws2 & Hrd2).
  split; [done|]. split; [done|].
  rewrite (pool_size_run _ _ _ _ _ _ HI2 Hrd2 Hrun2), Hws2.
  apply length_replicate.
Qed.



(** X13.  [Write] after the [Close] of a multi-part upload.  [Write] does
    not look at [bw.done]: once [Close] has closed the channel, a [Write]
    that fills the buffer goes on to [sendChunk], whose send on the closed
    channel panics. *)
Theorem write_after_close_panics nm ct inf acts W p :
  run (NewWorld nm ct inf) acts = Some W ->
  main W = Idle -> crashed W = false -> ready (bw W) = ChClosed ->
  threshold <= len (cbuf (bw W)) + len p ->
  exists W', step W (CallWrite p) = Some W' /\
             crashed W' = true /\ main W' = Panicked /\
             trace W' = trace W ++ [EvCallWrite p].
Proof.
  intros Hrun Hm Hcr Hrd Hp.
  destruct (run_good _ _ _ _ _ Hrun) as [HI HB _ _ _].
  pose proof (bytes_bound _ HB) as Hb.
  assert (once (bw W) = true) as Hon.
  { destruct (once (bw W)) eqn:E; [done|].
    rewrite (inv_once _ _ _ _ HI E) in Hrd. done. }
  clear HI HB.
  destruct W as [[cu tr rd wgc on dn fl nm1 ct1 inf1 cb ci ch] m ws t cr].
  simpl in *. subst. unfold_model.
  rewrite (proj2 (Z.ltb_ge _ _)) by lia.
  rewrite (proj2 (Z.ltb_ge _ _)) by lia.
  eexists. split; [reflexivity|]. done.
Qed.

Lemma lone_failure_step c W a W' :
  lone_failure c W -> step W a = Some W' -> lone_failure c W'.
Proof.
  destruct W as [[cu tr rd wgc on dn fl nm ct inf cb ci ch] m ws t cr].
  unfold lone_failure. unfold_model.
  intros (Hws & Hon & Hwg & Hst & Hfin & Hc) Hs. subst.
  repeat case_match; simplify_eq; unfold_model.
  all: repeat match goal with
       | Hl : [_] !! ?i = Some _ |- _ => destruct i as [|?]; simplify_eq/=
       end.
  all: to_prop; try lia.
  all: try (by exfalso; eapply Hst).
  all: norm; repeat split; try done; try lia.
Qed.

Lemma lone_failure_run c acts : forall W W',
  lone_failure c W -> run W acts = Some W' -> lone_failure c W'.
Proof.
  induction acts as [|a acts IH]; intros W W' HL Hr; simpl in Hr.
  - by simplify_eq.
  - destruct (step W a) as [W1|] eqn:Hs; [|done].
    eauto using lone_failure_step.
Qed.

(** X14.  One worker and one failed upload.  In a pool of one worker (the
    default) a failed part upload is final: the worker is at the send of
    line 127 and there is no other worker to receive.  Whatever happens
    next, the worker stays at that send (where it panics if [Close] closes
    the channel), the part is never uploaded successfully, and
    [FinishLargeFile] is never called. *)
Theorem lone_failure_is_final nm ct inf acts W c acts' W' :
  run (NewWorld nm ct inf) acts = Some W ->
  workers W = [WResend c] ->
  run W acts' = Some W' ->
  workers W' = [WResend c] /\
  count (is_ok_part (chunk_id c)) (trace W') = 0%nat /\
  count is_finish (trace W') = 0%nat.
Proof.
  intros Hrun Hws Hrun'.
  destruct (run_good _ _ _ _ _ Hrun) as [HI _ HP _ _].
  assert (ready (bw W) <> ChNil) as Hrd.
  { intros Hr. destruct (inv_nil _ _ _ _ HI Hr) as [Hn _]. congruence. }
  assert (lone_failure c W) as HL.
  { split; [done|]. split.
    { destruct (once (bw W)) eqn:E; [done|]. by destruct Hrd, (inv_once _ _ _ _ HI). }
    split; [rewrite (pool_wg _ HP), Hws; simpl; lia|].
    split.
    { intros k Hk. by destruct (inv_at_start _ _ _ _ HI _ Hk) as (_ & _ & ?). }
    assert (~ (main W = AtFinish \/ count is_finish (trace W) <> 0%nat)) as Hn.
    { intros Hf. destruct (pool_finish _ HP Hf) as [Hidle _].
      rewrite Hws in Hidle. apply (proj1 (Forall_singleton _ _)) in Hidle. done. }
    split; [tauto|]. destruct (count is_finish (trace W)); [done|]. exfalso. apply Hn. by right. }
  destruct (lone_failure_run _ _ _ _ HL Hrun') as (Hws' & _ & _ & _ & _ & Hfin').
  split; [done|]. split; [|done].
  destruct (run_good _ _ _ _ _ (run_app _ _ _ _ _ Hrun Hrun')) as [_ _ HP' _ _].
  pose proof (pool_once _ HP' (chunk_id c)) as Ho. rewrite Hws' in Ho.
  unfold n_holding in Ho. simpl in Ho. rewrite Z.eqb_refl in Ho.
  destruct (_ && _); lia.
Qed.

(** X15.  The wait group.  [bw.wg] counts the workers that are inside
    their loop (they have called [wg.Add(1)] and not yet [wg.Done()]): it
    is never negative, and it is zero exactly when no worker is at its
    receive, at an upload or at a resend. *)
Theorem wait_group_counts_workers nm ct inf acts W :
  run (NewWorld nm ct inf) acts = Some W ->
  wg (bw W) = Z.of_nat (n_live (workers W)) /\
  (wg (bw W) = 0 -> Forall (fun w => is_live w = false) (workers W)).
Proof.
  intros Hrun.
  destruct (run_good _ _ _ _ _ Hrun) as [_ _ HP _ _].
  split; [apply (pool_wg _ HP)|].
  rewrite (pool_wg _ HP). intros Hz.
  assert (n_live (workers W) = 0%nat) as Hn by lia. clear Hz.
  unfold n_live in Hn. induction (workers W) as [|w ws IH]; [done|].
  simpl in Hn. constructor; [by destruct (is_live w)|]. apply IH. lia.
Qed.

(** X16.  Every worker refused.  When every worker of the pool has been
    refused its upload endpoint and has returned, the caller thread that is
    handing over a chunk waits for ever: no thread can move, so neither the
    [Write] nor the [Close] in progress returns. *)
Theorem refused_pool_deadlock nm ct inf acts W k a :
  run (NewWorld nm ct inf) acts = Some W ->
  main W = AtSend k ->
  Forall (fun w => w = WExit) (workers W) ->
  step W a = None.
Proof.
  intros _ Hm Hws.
  destruct W as [[cu tr rd wgc on dn fl nm1 ct1 inf1 cb ci ch] m ws t cr].
  simpl in *. subst. unfold_model.
  repeat case_match; simplify_eq; try done.
  all: repeat match goal with
       | Hl : ?l !! _ = Some _ |- _ =>
           let Hx := fresh "Hx" in
           pose proof (Forall_lookup_1 _ _ _ _ Hws Hl) as Hx; cbn beta in Hx; clear Hl
       end; simplify_eq.
Qed.

End PoolTheorems.

Section SessionTheorems.
Context `{Hash}.

Lemma Inv_session_init nm ct inf : Inv_session nm ct inf (NewWorld nm ct inf).
Proof. constructor; cbn; done. Qed.

Lemma Inv_session_step nm0 ct0 inf0 W a W' :
  Inv nm0 ct0 inf0 W -> Inv_session nm0 ct0 inf0 W -> step W a = Some W' ->
  Inv_session nm0 ct0 inf0 W'.
Proof.
  intros HI [Sfile Snamed] Hs.
  pose proof (inv_name _ _ _ _ HI) as Hname.
  clear HI.
  destruct W as [[cu tr rd wgc on dn fl nm ct inf cb ci ch] m ws t cr].
  unfold_model.
  destruct Hname as (-> & -> & ->).
  repeat case_match; simplify_eq.
  all: constructor; unfold_model; try done.
  all: try (intros _; by apply Sfile).
  all: repeat (apply Forall_app; split); try done.
  all: repeat (apply Forall_cons; split); try apply Forall_nil; done.
Qed.

Lemma Inv_session_run nm0 ct0 inf0 acts : forall W W',
  Inv nm0 ct0 inf0 W -> Inv_session nm0 ct0 inf0 W -> run W acts = Some W' ->
  Inv_session nm0 ct0 inf0 W'.
Proof.
  induction acts as [|a acts IH]; intros W W' HI HS Hr; simpl in Hr.
  - by simplify_eq.
  - destruct (step W a) as [W1|] eqn:Hs; [|done].
    eauto using Inv_step, Inv_session_step.
Qed.

(** X17.  The large-file session.  [StartLargeFile] is called with the
    name, the content type and the info the writer was created with, and
    [bw.file] is set whenever it is used: when a worker exists (it calls
    [bw.file.GetUploadPartURL]) and when [Close] is about to call
    [bw.file.FinishLargeFile]. *)
Theorem large_file_session nm ct inf acts W :
  run (NewWorld nm ct inf) acts = Some W ->
  (forall i n c info r,
     trace W !! i = Some (EvRemote (StartLargeFile n c info) r) ->
     n = nm /\ c = ct /\ info = inf) /\
  (workers W <> [] \/ main W = AtFinish -> file (bw W) = true).
Proof.
  intros Hrun.
  destruct (run_good _ _ _ _ _ Hrun) as [HI _ HP _ _].
  destruct (Inv_session_run _ _ _ _ _ _ (Inv_init nm ct inf)
              (Inv_session_init nm ct inf) Hrun) as [Sfile Snamed].
  split.
  - intros i n c info r Hi. apply (Forall_lookup_1 _ _ _ _ Snamed Hi).
  - intros [Hws|Hm]; apply Sfile.
    + intros Hr. by destruct (inv_nil _ _ _ _ HI Hr).
    + destruct (pool_finish _ HP (or_introl Hm)) as [_ ->]. done.
Qed.

End SessionTheorems.

(** ** Concrete runs *)

Ltac run_one := unfold_model; repeat decide_test; simpl; reflexivity.
Ltac run_all := repeat (eapply run_cons; [run_one|]); reflexivity.

Lemma run_upload_small `{Hash} nm ct inf p :
  len p < threshold ->
  exists W,
    run (NewWorld nm ct inf) (upload_small p) = Some W /\
    main W = Idle /\
    trace W =
      [EvCallWrite p; EvRetWrite (len p) None; EvCallClose;
       EvRemote GetUploadURL OK;
       EvRemote (UploadFile p (len p) nm ct (hex (hsum (hwrite hnew p))) inf) OK;
       EvRetClose None].
Proof.
  intros Hp. pose proof threshold_pos as HT. pose proof (len_nonneg p).
  eexists. split; [unfold NewWorld, NewWriter, upload_small; run_all|].
  simpl. tidy. done.
Qed.

Lemma run_upload_finished `{Hash} nm ct inf p :
  len p = threshold ->
  exists W,
    run (NewWorld nm ct inf) (upload_exact p) = Some W /\
    main W = Idle /\ crashed W = false /\ ready (bw W) = ChClosed /\
    cbuf (bw W) = [] /\ workers W = [WExit] /\
    trace W !! 5%nat =
      Some (EvRemote (UploadPart p (hex (hsum (hwrite hnew p))) threshold 1) OK) /\
    trace W !! 7%nat = Some (EvRemote FinishLargeFile OK) /\
    submitted (trace W) = [Chunk 1 0 threshold (hex (hsum (hwrite hnew p))) p].
Proof.
  intros Hp. pose proof threshold_pos as HT.
  eexists. split; [unfold NewWorld, NewWriter, upload_exact; run_all|].
  simpl. tidy. rewrite ?Hp. done.
Qed.

Lemma run_endpoint_refused `{Hash} nm ct inf p err :
  len p = threshold ->
  exists W,
    run (NewWorld nm ct inf) (endpoint_refused p err) = Some W /\
    main W = AtSend (FWrite threshold []) /\
    workers W = [WExit] /\
    count is_part_url_ok (trace W) = 0%nat.
Proof.
  intros Hp. pose proof threshold_pos as HT.
  eexists. split; [unfold NewWorld, NewWriter, endpoint_refused; run_all|].
  simpl. tidy. rewrite ?Hp. done.
Qed.


Lemma run_failure_then_close `{Hash} nm ct inf p err :
  len p = threshold ->
  exists W W',
    run (NewWorld nm ct inf) (first_upload_fails p err) = Some W /\
    workers W = [WResend (Chunk 1 1 threshold (hex (hsum (hwrite hnew p))) p)] /\
    run W [CallClose; WorkerSendClosed 0] = Some W'.
Proof.
  intros Hp. pose proof threshold_pos as HT.
  eexists _, _. split; [unfold NewWorld, NewWriter, first_upload_fails; run_all|].
  split; [simpl; tidy; by rewrite ?Hp|].
  run_all.
Qed.

Lemma started_step `{Hash} W k r :
  main W = AtStart k -> crashed W = false ->
  step W (MainRemote r) = Some (started k r W).
Proof.
  destruct W as [b m ws t cr]. simpl. intros -> ->. reflexivity.
Qed.

Lemma len_zeros_small : len (zeros 5) < threshold.
Proof. rewrite len_zeros, threshold_eq by lia. lia. Qed.

Lemma total_len_zeros_small : total_len [zeros 5] < threshold.
Proof. unfold total_len. simpl. pose proof len_zeros_small. lia. Qed.


Lemma zeros_refill : threshold <= len (@nil byte) + len (zeros threshold).
Proof. rewrite len_zeros_threshold, len_nil. lia. Qed.

(** ** The theorems at concrete uploads *)


Lemma write_contract_witness :
  exists W : @World stream_hash,
    run (NewWorld "big.bin" "application/octet-stream" ∅)
      [CallWrite (zeros 150000000); MainRemote (Fail "unavailable")] = Some W /\
    Forall contract_ok (write_results (trace W)).
Proof.
  destruct (run_start_fails (H := stream_hash) "big.bin" "application/octet-stream" ∅
              (zeros 150000000) "unavailable" zeros_large_overflow) as (W & Hrun & _).
  exists W. split; [exact Hrun|].
  exact (write_contract _ _ _ _ _ Hrun).
Defined.

Lemma whole_object_upload_witness :
  exists W : @World stream_hash,
    run (NewWorld "small.txt" "text/plain" ∅) (upload_small (zeros 5)) = Some W /\
    (count is_upload_file (trace W) <= 1)%nat.
Proof.
  destruct (run_upload_small (H := stream_hash) "small.txt" "text/plain" ∅
              (zeros 5) len_zeros_small) as (W & Hrun & _).
  exists W. split; [exact Hrun|].
  exact (proj1 (whole_object_upload _ _ _ _ _ Hrun)).
Defined.

Lemma small_upload_witness :
  exists W : @World stream_hash,
    run (NewWorld "small.txt" "text/plain" ∅) (upload_small (zeros 5)) = Some W /\
    workers W = [] /\ submitted (trace W) = [].
Proof.
  destruct (run_upload_small (H := stream_hash) "small.txt" "text/plain" ∅
              (zeros 5) len_zeros_small) as (W & Hrun & Hm & Ht).
  exists W. split; [exact Hrun|].
  assert (history (trace W) = writes_ok [zeros 5] ++ [EvCallClose; EvRetClose None]) as Hh
    by (rewrite Ht; reflexivity).
  destruct (small_upload _ _ _ _ _ _ _ Hrun Hh total_len_zeros_small) as (Hw & Hs & _).
  exact (conj Hw Hs).
Defined.


Lemma part_in_one_place_witness :
  exists W : @World stream_hash,
    run (NewWorld "big.bin" "application/octet-stream" ∅)
      (first_upload_fails (zeros threshold) "timeout") = Some W /\
    (n_holding 1 (workers W) + count (is_ok_part 1) (trace W))%nat =
    if (1 <=? 1) && (1 <=? Z.of_nat (length (submitted (trace W))))
    then 1%nat else 0%nat.
Proof.
  destruct (run_first_upload_fails (H := stream_hash) "big.bin" "application/octet-stream" ∅
              (zeros threshold) "timeout" len_zeros_threshold) as (W & Hrun & _).
  exists W. split; [exact Hrun|].
  exact (part_in_one_place _ _ _ _ _ 1 Hrun).
Defined.



Lemma buffer_bounded_witness :
  exists W : @World stream_hash,
    run (NewWorld "small.txt" "text/plain" ∅) (upload_small (zeros 5)) = Some W /\
    len (cbuf (bw W)) <= threshold.
Proof.
  destruct (run_upload_small (H := stream_hash) "small.txt" "text/plain" ∅
              (zeros 5) len_zeros_small) as (W & Hrun & _).
  exists W. split; [exact Hrun|].
  exact (proj1 (buffer_bounded _ _ _ _ _ Hrun)).
Defined.

Lemma pool_size_fixed_witness :
  exists (W W2 : @World stream_hash),
    run (NewWorld "big.bin" "application/octet-stream" ∅)
      [CallWrite (zeros 150000000)] = Some W /\
    step W (MainRemote OK) = Some W2 /\
    length (workers W2) = Z.to_nat (Z.max 1 (ConcurrentUploads (bw W))).
Proof.
  destruct (run_overflow (H := stream_hash) "big.bin" "application/octet-stream" ∅
              (zeros 150000000) zeros_large_overflow) as (W & Hrun & Hm & Hcr).
  exists W. eexists. split; [exact Hrun|].
  split; [exact (started_step _ _ OK Hm Hcr)|].
  exact (proj2 (proj2 (pool_size_fixed _ _ _ _ _ _ _ [] _ Hrun Hm
                         (started_step _ _ OK Hm Hcr) eq_refl))).
Defined.



Lemma write_after_close_panics_witness :
  exists (W W' : @World stream_hash),
    run (NewWorld "big.bin" "application/octet-stream" ∅)
      (upload_exact (zeros threshold)) = Some W /\
    step W (CallWrite (zeros threshold)) = Some W' /\ crashed W' = true.
Proof.
  destruct (run_upload_finished (H := stream_hash) "big.bin" "application/octet-stream" ∅
              (zeros threshold) len_zeros_threshold)
    as (W & Hrun & Hm & Hcr & Hrd & Hcb & _).
  assert (threshold <= len (cbuf (bw W)) + len (zeros threshold)) as Hp
    by (rewrite Hcb; exact zeros_refill).
  destruct (write_after_close_panics _ _ _ _ _ (zeros threshold) Hrun Hm Hcr Hrd Hp)
    as (W' & Hs & Hc & _).
  exists W, W'. exact (conj Hrun (conj Hs Hc)).
Defined.

Lemma lone_failure_is_final_witness :
  exists (W W' : @World stream_hash),
    run (NewWorld "big.bin" "application/octet-stream" ∅)
      (first_upload_fails (zeros threshold) "timeout") = Some W /\
    run W [CallClose; WorkerSendClosed 0] = Some W' /\
    count is_finish (trace W') = 0%nat.
Proof.
  destruct (run_failure_then_close (H := stream_hash) "big.bin" "application/octet-stream" ∅
              (zeros threshold) "timeout" len_zeros_threshold)
    as (W & W' & Hrun & Hws & Hrun').
  exists W, W'. split; [exact Hrun|]. split; [exact Hrun'|].
  exact (proj2 (proj2 (lone_failure_is_final _ _ _ _ _ _ _ _ Hrun Hws Hrun'))).
Defined.

Lemma refused_pool_deadlock_witness :
  exists W : @World stream_hash,
    run (NewWorld "big.bin" "application/octet-stream" ∅)
      (endpoint_refused (zeros threshold) "no endpoint") = Some W /\
    step W CallClose = None.
Proof.
  destruct (run_endpoint_refused (H := stream_hash) "big.bin" "application/octet-stream" ∅
              (zeros threshold) "no endpoint" len_zeros_threshold)
    as (W & Hrun & Hm & Hws & _).
  exists W. split; [exact Hrun|].
  refine (refused_pool_deadlock _ _ _ _ _ _ CallClose Hrun Hm _).
  rewrite Hws. repeat constructor.
Defined.

Lemma wait_group_counts_workers_witness :
  exists W : @World stream_hash,
    run (NewWorld "big.bin" "application/octet-stream" ∅)
      (first_upload_fails (zeros threshold) "timeout") = Some W /\
    wg (bw W) = Z.of_nat (n_live (workers W)).
Proof.
  destruct (run_first_upload_fails (H := stream_hash) "big.bin" "application/octet-stream" ∅
              (zeros threshold) "timeout" len_zeros_threshold) as (W & Hrun & _).
  exists W. split; [exact Hrun|].
  exact (proj1 (wait_group_counts_workers _ _ _ _ _ Hrun)).
Defined.

Lemma large_file_session_witness :
  exists W : @World stream_hash,
    run (NewWorld "big.bin" "application/octet-stream" ∅)
      (upload_exact (zeros threshold)) = Some W /\
    file (bw W) = true.
Proof.
  destruct (run_upload_finished (H := stream_hash) "big.bin" "application/octet-stream" ∅
              (zeros threshold) len_zeros_threshold)
    as (W & Hrun & _ & _ & _ & _ & Hws & _).
  exists W. split; [exact Hrun|].
  refine (proj2 (large_file_session _ _ _ _ _ Hrun) (or_introl _)).
  rewrite Hws. discriminate.
Defined.

(** * More of the registry *)

(** X18.  One writer per object.  Registering a second writer under the
    bucket and the name of a registered one replaces it: the registry is
    as if the first had never been added, and removing either of the two
    leaves no entry under their key. *)
Theorem registry_one_writer_per_key (c : Registry.Client) (w1 w2 : Registry.Writer) :
  Registry.key w1 = Registry.key w2 ->
  Registry.addWriter (Registry.addWriter c w1) w2 = Registry.addWriter c w2 /\
  Registry.entry (Registry.addWriter (Registry.addWriter c w1) w2) (Registry.key w1)
    = Some w2 /\
  Registry.entry
    (Registry.removeWriter (Registry.addWriter (Registry.addWriter c w1) w2) w1)
    (Registry.key w2) = None.
Proof.
  intros Hk.
  destruct c as [[m|]]; unfold Registry.entry, Registry.addWriter, Registry.removeWriter;
    simpl; rewrite Hk.
  - split; [by rewrite insert_insert_eq|].
    split; [apply lookup_insert_eq|apply lookup_delete_eq].
  - split; [by rewrite insert_insert_eq|].
    split; [apply lookup_insert_eq|apply lookup_delete_eq].
Qed.

Lemma registry_one_writer_per_key_witness :
  Registry.entry
    (Registry.addWriter
       (Registry.addWriter (Registry.mkClient None) (Registry.mkWriter "photos" "a.jpg" 1))
       (Registry.mkWriter "photos" "a.jpg" 2))
    "photos/a.jpg" = Some (Registry.mkWriter "photos" "a.jpg" 2).
Proof.
  exact (proj1 (proj2 (registry_one_writer_per_key (Registry.mkClient None)
                         (Registry.mkWriter "photos" "a.jpg" 1)
                         (Registry.mkWriter "photos" "a.jpg" 2) eq_refl))).
Defined.

Lemma key_split b1 n1 b2 n2 :
  no_slash b1 = true -> no_slash b2 = true ->
  b1 +:+ "/" +:+ n1 = b2 +:+ "/" +:+ n2 -> b1 = b2 /\ n1 = n2.
Proof.
  revert b2. induction b1 as [|a b1 IH]; intros [|a' b2] H1 H2 Heq; simpl in *.
  - by simplify_eq.
  - by simplify_eq.
  - by simplify_eq.
  - apply andb_prop in H1 as [_ H1]. apply andb_prop in H2 as [_ H2].
    injection Heq as -> Heq. destruct (IH _ H1 H2 Heq) as [-> ->]. done.
Qed.

(** X19.  The key names the object.  When the names of two buckets hold no
    ["/"], two writers have the same key only if they have the same bucket
    name and the same object name: the registry does not mix up writers of
    different objects. *)
Theorem registry_key_injective (w1 w2 : Registry.Writer) :
  no_slash (Registry.bucket_name w1) = true ->
  no_slash (Registry.bucket_name w2) = true ->
  Registry.key w1 = Registry.key w2 ->
  Registry.bucket_name w1 = Registry.bucket_name w2 /\
  Registry.name w1 = Registry.name w2.
Proof. unfold Registry.key. apply key_split. Qed.

Lemma registry_key_injective_witness :
  Registry.bucket_name (Registry.mkWriter "photos" "2017/a.jpg" 1) =
  Registry.bucket_name (Registry.mkWriter "photos" "2017/a.jpg" 2) /\
  Registry.name (Registry.mkWriter "photos" "2017/a.jpg" 1) =
  Registry.name (Registry.mkWriter "photos" "2017/a.jpg" 2).
Proof.
  exact (registry_key_injective (Registry.mkWriter "photos" "2017/a.jpg" 1)
           (Registry.mkWriter "photos" "2017/a.jpg" 2) eq_refl eq_refl eq_refl).
Defined.

Lemma append_assoc (a b c : string) : (a +:+ b) +:+ c = a +:+ b +:+ c.
Proof.
  induction a as [|x a IH]; [done|].
  change (String x ((a +:+ b) +:+ c) = String x (a +:+ b +:+ c)). by rewrite IH.
Qed.

(** X20.  Without that, keys collide.  [addWriter] and [removeWriter] do not
    look at the bucket name: the writer of object [m] in a bucket named
    [b/n] and the writer of object [n/m] in the bucket [b] have the same
    key, so removing the one removes the entry of the other. *)
Theorem registry_key_collision (c : Registry.Client) (b n m : string) (a1 a2 : nat) :
  Registry.key (Registry.mkWriter (b +:+ "/" +:+ n) m a1) =
  Registry.key (Registry.mkWriter b (n +:+ "/" +:+ m) a2) /\
  Registry.entry
    (Registry.removeWriter
       (Registry.addWriter c (Registry.mkWriter (b +:+ "/" +:+ n) m a1))
       (Registry.mkWriter b (n +:+ "/" +:+ m) a2))
    (Registry.key (Registry.mkWriter (b +:+ "/" +:+ n) m a1)) = None.
Proof.
  assert (Registry.key (Registry.mkWriter (b +:+ "/" +:+ n) m a1) =
          Registry.key (Registry.mkWriter b (n +:+ "/" +:+ m) a2)) as Hk.
  { unfold Registry.key. simpl. by rewrite !append_assoc. }
  split; [done|].
  unfold Registry.entry, Registry.removeWriter, Registry.addWriter. simpl.
  rewrite Hk. apply lookup_delete_eq.
Qed.

(** * The lookup of a bucket *)

Lemma find_bucket_spec name buckets :
  match Buckets.find_bucket name buckets with
  | Some bk =>
      exists pre post,
        buckets = pre ++ Buckets.b bk :: post /\
        Buckets.Name (Buckets.b bk) = name /\
        Forall (fun x => Buckets.Name x <> name) pre
  | None => Forall (fun x => Buckets.Name x <> name) buckets
  end.
Proof.
  induction buckets as [|x rest IH]; simpl; [done|].
  destruct (String.eqb_spec (Buckets.Name x) name) as [Hx|Hx].
  - exists [], rest. done.
  - destruct (Buckets.find_bucket name rest) as [bk|].
    + destruct IH as (pre & post & -> & Hn & Hpre).
      exists (x :: pre), post. repeat split; [done|by constructor].
    + by constructor.
Qed.

(** X21.  [Bucket] answers the first bucket of the listing that has the
    name asked for; it fails with the error of the listing when the listing
    fails, and with ["<name>: no such bucket"] exactly when the listing
    holds no bucket of that name. *)
Theorem bucket_lookup (c : Buckets.Client) (listing : list Buckets.base_Bucket + error)
    (name : string) :
  match Buckets.Client_Bucket c listing name with
  | inl bk =>
      exists buckets pre post,
        listing = inl buckets /\
        buckets = pre ++ Buckets.b bk :: post /\
        Buckets.Name (Buckets.b bk) = name /\
        Forall (fun x => Buckets.Name x <> name) pre
  | inr err =>
      listing = inr err \/
      exists buckets,
        listing = inl buckets /\
        Forall (fun x => Buckets.Name x <> name) buckets /\
        err = name +:+ ": no such bucket"
  end.
Proof.
  destruct listing as [buckets|err]; simpl; [|by left].
  pose proof (find_bucket_spec name buckets) as Hf.
  destruct (Buckets.find_bucket name buckets) as [bk|].
  - destruct Hf as (pre & post & Hb & Hn & Hpre). by exists buckets, pre, post.
  - right. by exists buckets.
Qed.
